(** * Player statistics from a table of chess games

    A shallow embedding of [csv_to_player_stats.py].  The script reads one
    row per game, groups the rows by the White and by the Black player,
    joins the per-player partial tables on the [Player] key and derives
    per-player averages, an Elo estimate and a performance rating, and
    writes the rows sorted by [avg_gi].

    Modelling decisions, all local to this file:
    - a float64 cell is a rational number, or one of the three IEEE
      specials the pipeline can create ([NaN] for a join gap or a variance
      without degrees of freedom, the infinities for a division by zero).
      Rounding error and the sign of zero are not represented;
    - the input table has the sixteen columns of the input schema and no
      empty cell, so a game is a record of two strings and fourteen numbers;
    - a per-player table is an ordered list of rows keyed by [Player], each
      row an association list from column name to cell, in column order;
    - [numpy.sqrt], the two functions of [epr_calculator] and the sort
      behind [DataFrame.sort_values] are not part of the script: they are
      variables of the section that defines the pipeline, the sort with
      the guarantee pandas documents for the call the script makes.  A
      statement about the cells of the output holds for every sort with
      that guarantee; the order of the rows is stated for the sort
      that leaves rows with equal keys in place. *)

From Stdlib Require Import List String Ascii Bool Arith ZArith QArith Qround.
From Stdlib Require Import Qabs Lia Lqa Permutation Sorted OrderedTypeEx.
Import ListNotations.

Local Open Scope string_scope.
Local Open Scope list_scope.

(** ** Cells *)

Inductive cell : Type :=
| Num (q : Q)
| PInf
| NInf
| NaN.

Definition Qltb (x y : Q) : bool :=
  match (x ?= y)%Q with Lt => true | _ => false end.

Definition Qleb (x y : Q) : bool :=
  match (x ?= y)%Q with Gt => false | _ => true end.

(** [a + b] on float64. *)
Definition cell_add (a b : cell) : cell :=
  match a, b with
  | NaN, _ | _, NaN => NaN
  | Num x, Num y => Num (x + y)
  | PInf, NInf | NInf, PInf => NaN
  | PInf, _ | _, PInf => PInf
  | NInf, _ | _, NInf => NInf
  end.

(** [a / b] on float64: numpy returns an infinity or [NaN] for a zero
    denominator and does not raise. *)
Definition cell_div (a b : cell) : cell :=
  match a, b with
  | NaN, _ | _, NaN => NaN
  | Num x, Num y =>
      if Qeq_bool y 0 then
        (if Qeq_bool x 0 then NaN else if Qltb 0 x then PInf else NInf)
      else Num (x / y)
  | Num _, _ => Num 0
  | PInf, Num y => if Qltb y 0 then NInf else PInf
  | NInf, Num y => if Qltb y 0 then PInf else NInf
  | _, _ => NaN
  end.

(** [a < b]; false as soon as one side is [NaN]. *)
Definition cell_ltb (a b : cell) : bool :=
  match a, b with
  | NaN, _ | _, NaN => false
  | Num x, Num y => Qltb x y
  | _, NInf => false
  | NInf, _ => true
  | PInf, _ => false
  | _, PInf => true
  end.

(** [a <= b]; false as soon as one side is [NaN]. *)
Definition cell_leb (a b : cell) : bool :=
  match a, b with
  | NaN, _ | _, NaN => false
  | Num x, Num y => Qleb x y
  | NInf, _ => true
  | _, NInf => false
  | _, PInf => true
  | PInf, _ => false
  end.

Definition is_nan (c : cell) : bool :=
  match c with NaN => true | _ => false end.

(** [fillna(v)] on one cell. *)
Definition fill (v : Q) (c : cell) : cell :=
  match c with NaN => Num v | _ => c end.

(** Python's [max(a, b)]: the first argument unless the second is larger. *)
Definition py_max (a b : cell) : cell :=
  if cell_ltb a b then b else a.

(** Rounding to the nearest integer, a tie going to the even neighbour. *)
Definition round_half_even (q : Q) : Z :=
  let f := Qfloor q in
  match (q - inject_Z f ?= 1 # 2)%Q with
  | Lt => f
  | Gt => (f + 1)%Z
  | Eq => if Z.even f then f else (f + 1)%Z
  end.

(** [round(x, 0)] on a float: still a float, the specials unchanged. *)
Definition py_round (c : cell) : cell :=
  match c with
  | Num q => Num (inject_Z (round_half_even q))
  | _ => c
  end.

(** A running total, added in row order from zero. *)
Definition Qsum (l : list Q) : Q := fold_left Qplus l 0%Q.

Definition Qlen {A : Type} (l : list A) : Q := inject_Z (Z.of_nat (List.length l)).

(** ** The input table *)

Record game : Type := {
  White : string;
  Black : string;
  WhiteElo : Q;
  BlackElo : Q;
  WhiteResult : Q;
  BlackResult : Q;
  white_move_number : Q;
  black_move_number : Q;
  white_gi : Q;
  black_gi : Q;
  white_gi_raw : Q;
  black_gi_raw : Q;
  white_gpl : Q;
  black_gpl : Q;
  white_acpl : Q;
  black_acpl : Q
}.

(** ** Per-player tables *)

Definition row : Type := list (string * cell).

Record frame : Type := {
  columns : list string;
  rows : list (string * row)
}.

Definition keys (f : frame) : list string := map fst (rows f).

Fixpoint lookup (c : string) (r : row) : option cell :=
  match r with
  | [] => None
  | (c', v) :: t => if String.eqb c' c then Some v else lookup c t
  end.

(** [row[c]].  Every column read by the script is created earlier in the
    same function, so the missing-column branch is never taken there; it
    is given the value [NaN] to keep the accessor total. *)
Definition col (r : row) (c : string) : cell :=
  match lookup c r with Some v => v | None => NaN end.

Definition mem (s : string) (l : list string) : bool :=
  existsb (String.eqb s) l.

(** Keys in lexicographic order, each once: the order of the groups of a
    [groupby] and of the rows of an outer [merge]. *)
Fixpoint insert_key (k : string) (l : list string) : list string :=
  match l with
  | [] => [k]
  | x :: t =>
      match String.compare k x with
      | Lt => k :: l
      | Eq => l
      | Gt => x :: insert_key k t
      end
  end.

Definition sorted_unique (l : list string) : list string :=
  fold_right insert_key [] l.

(** [df.groupby(key)]: one group per distinct key, keys ascending, the
    rows of a group in table order. *)
Definition groupby {A : Type} (key : A -> string) (df : list A)
  : list (string * list A) :=
  map (fun k => (k, filter (fun a => String.eqb (key a) k) df))
      (sorted_unique (map key df)).

(** One aggregated column per group, after [reset_index] and renaming. *)
Definition agg {A : Type} (name : string) (f : list A -> cell)
           (groups : list (string * list A)) : frame :=
  {| columns := [name];
     rows := map (fun g => (fst g, [(name, f (snd g))])) groups |}.

(** [Series.value_counts()]: each distinct value with its number of
    occurrences, most frequent first.  Values are met in order of first
    appearance; pandas does not fix the order among equal counts, and no
    later step reads it (the outer merge reorders the rows by key). *)
Fixpoint distinct (l : list string) : list string :=
  match l with
  | [] => []
  | x :: t => x :: filter (fun y => negb (String.eqb y x)) (distinct t)
  end.

Definition count_of (k : string) (l : list string) : nat :=
  List.length (filter (String.eqb k) l).

Fixpoint insert_count (x : string * nat) (l : list (string * nat))
  : list (string * nat) :=
  match l with
  | [] => [x]
  | y :: t => if Nat.ltb (snd x) (snd y) then y :: insert_count x t else x :: l
  end.

Definition value_counts (l : list string) : list (string * nat) :=
  fold_right insert_count [] (map (fun k => (k, count_of k l)) (distinct l)).

(** [DataFrame.fillna(v)]. *)
Definition fillna (v : Q) (f : frame) : frame :=
  {| columns := columns f;
     rows := map (fun kr => (fst kr, map (fun cv => (fst cv, fill v (snd cv))) (snd kr)))
                 (rows f) |}.

Fixpoint set_cell (c : string) (v : cell) (r : row) : row :=
  match r with
  | [] => [(c, v)]
  | (c', v') :: t =>
      if String.eqb c' c then (c, v) :: t else (c', v') :: set_cell c v t
  end.

(** [f[name] = g(row)] for every row: the column is overwritten in place
    when it exists and appended otherwise; [g] reads the row as it was. *)
Definition assign (name : string) (g : row -> cell) (f : frame) : frame :=
  {| columns := if mem name (columns f) then columns f else columns f ++ [name];
     rows := map (fun kr => (fst kr, set_cell name (g (snd kr)) (snd kr))) (rows f) |}.

(** [f[['Player'] + cols]]. *)
Definition select (cols : list string) (f : frame) : frame :=
  {| columns := cols;
     rows := map (fun kr => (fst kr, map (fun c => (c, col (snd kr) c)) cols)) (rows f) |}.

(** *** [pandas.merge] on the [Player] key *)

Inductive how : Type := Inner | Left | Outer.

Definition matching (k : string) (f : frame) : list row :=
  map snd (filter (fun kr => String.eqb (fst kr) k) (rows f)).

Definition nan_row (cols : list string) : row :=
  map (fun c => (c, NaN)) cols.

(** A column name that both sides carry gets the side's suffix. *)
Definition suffixed (other : list string) (sfx : string) (c : string) : string :=
  if mem c other then (c ++ sfx)%string else c.

Definition rename_row (ren : string -> string) (r : row) : row :=
  map (fun cv => (ren (fst cv), snd cv)) r.

Definition join_rows (left right : frame) (ra rb : row) : row :=
  rename_row (suffixed (columns right) "_x") ra
  ++ rename_row (suffixed (columns left) "_y") rb.

(** The rows a left row with key [k] produces: one per matching right
    row; when there is none, a row padded with [NaN], unless the join is
    an inner one. *)
Definition pair_up (left right : frame) (h : how) (k : string) (ra : row)
  : list (string * row) :=
  match matching k right with
  | [] =>
      match h with
      | Inner => []
      | _ => [(k, join_rows left right ra (nan_row (columns right)))]
      end
  | rbs => map (fun rb => (k, join_rows left right ra rb)) rbs
  end.

(** [pd.merge(left, right, on='Player', how=h)].  An inner or left join
    keeps the order of the left keys; an outer join takes the union of
    the keys in lexicographic order. *)
Definition merge (left right : frame) (h : how) : frame :=
  {| columns := map (suffixed (columns right) "_x") (columns left)
                ++ map (suffixed (columns left) "_y") (columns right);
     rows :=
       match h with
       | Outer =>
           flat_map
             (fun k =>
                match matching k left with
                | [] => map (fun rb => (k, join_rows left right (nan_row (columns left)) rb))
                            (matching k right)
                | ras => flat_map (pair_up left right Outer k) ras
                end)
             (sorted_unique (keys left ++ keys right))
       | _ => flat_map (fun kr => pair_up left right h (fst kr) (snd kr)) (rows left)
       end |}.

(** ** The functions of the script *)

Definition calculate_sum (df : list game) (group_col : game -> string)
           (value_col : game -> Q) (prefix : string) : frame :=
  agg (prefix ++ "_sum")%string
      (fun g => Num (Qsum (map value_col g)))
      (groupby group_col df).

(** [player_col] is passed twice: as the accessor and as the column name
    the result column is named after. *)
Definition calculate_games (df : list game) (player_col : game -> string)
           (player_col_name : string) : frame :=
  let name := (player_col_name ++ "_games")%string in
  {| columns := [name];
     rows := map (fun kc => (fst kc, [(name, Num (inject_Z (Z.of_nat (snd kc))))]))
                 (value_counts (map player_col df)) |}.

Definition calculate_total_games (white_games black_games : frame) : frame :=
  let total_games := fillna 0 (merge white_games black_games Outer) in
  assign "total_game_count"
         (fun r => cell_add (col r "White_games") (col r "Black_games"))
         total_games.

Definition calculate_total_moves (df : list game) : frame :=
  let white_moves := calculate_sum df White white_move_number "white_move" in
  let black_moves := calculate_sum df Black black_move_number "black_move" in
  let total_moves := fillna 0 (merge white_moves black_moves Outer) in
  let total_moves :=
    assign "total_moves"
           (fun r => cell_add (col r "white_move_sum") (col r "black_move_sum"))
           total_moves in
  select ["total_moves"] total_moves.

Definition calculate_opponent_elo_sums (df : list game) : frame :=
  let white_opponent_elo_sum :=
    agg "sum_opponent_elo" (fun g => Num (Qsum (map BlackElo g))) (groupby White df) in
  let black_opponent_elo_sum :=
    agg "sum_opponent_elo" (fun g => Num (Qsum (map WhiteElo g))) (groupby Black df) in
  let opponent_elo_sums :=
    fillna 0 (merge white_opponent_elo_sum black_opponent_elo_sum Outer) in
  let opponent_elo_sums :=
    assign "sum_opponent_elo"
           (fun r => cell_add (col r "sum_opponent_elo_x") (col r "sum_opponent_elo_y"))
           opponent_elo_sums in
  select ["sum_opponent_elo"] opponent_elo_sums.

Definition calculate_avg_opponent_elo (opponent_elo_sums total_games : frame) : frame :=
  let merged := merge opponent_elo_sums (select ["total_game_count"] total_games) Inner in
  let merged :=
    assign "avg_opponent_elo"
           (fun r => cell_div (col r "sum_opponent_elo") (col r "total_game_count"))
           merged in
  select ["avg_opponent_elo"] merged.

(** The mean of a group; a group of a [groupby] is never empty. *)
Definition mean (l : list Q) : cell :=
  match l with
  | [] => NaN
  | _ => Num (Qsum l / Qlen l)
  end.

Definition estimated_elo (r : row) : cell :=
  let w := col r "avg_elo_white" in
  let b := col r "avg_elo_black" in
  py_round (if cell_ltb (Num 0) w && cell_ltb (Num 0) b
            then cell_div (cell_add w b) (Num 2)
            else py_max w b).

Definition calculate_average_elo (df : list game) : frame :=
  let white_elo_avg :=
    agg "avg_elo_white" (fun g => mean (map WhiteElo g)) (groupby White df) in
  let black_elo_avg :=
    agg "avg_elo_black" (fun g => mean (map BlackElo g)) (groupby Black df) in
  let elo_avg := fillna 0 (merge white_elo_avg black_elo_avg Outer) in
  let elo_avg := assign "Elo" estimated_elo elo_avg in
  select ["Elo"] elo_avg.

(** [dfs[0]] raises on an empty list: [None]. *)
Definition merge_dataframes (dfs : list frame) : option frame :=
  match dfs with
  | [] => None
  | first :: rest =>
      Some (fold_left (fun merged_df df => fillna 0 (merge merged_df df Outer)) rest first)
  end.

Definition calculate_averages (player_stats : frame) : frame :=
  let player_stats :=
    assign "avg_gi"
           (fun r => cell_div (col r "total_gi_sum") (col r "total_game_count"))
           player_stats in
  let player_stats :=
    assign "avg_gi_raw"
           (fun r => cell_div (col r "total_gi_raw_sum") (col r "total_game_count"))
           player_stats in
  let player_stats :=
    assign "avg_gpl"
           (fun r => cell_div (col r "total_gpl_sum") (col r "total_game_count"))
           player_stats in
  assign "avg_acpl"
         (fun r => cell_div (col r "total_acpl_sum") (col r "total_game_count"))
         player_stats.

(** *** Dispersion statistics over the pooled observations *)

Record observation : Type := {
  Player : string;
  gi : Q;
  gi_raw : Q;
  gpl : Q;
  acpl : Q
}.

Fixpoint insert_Q (x : Q) (l : list Q) : list Q :=
  match l with
  | [] => [x]
  | y :: t => if Qleb x y then x :: l else y :: insert_Q x t
  end.

Definition sort_Q (l : list Q) : list Q := fold_right insert_Q [] l.

(** The middle value, or the mean of the two middle values. *)
Definition median (l : list Q) : cell :=
  let s := sort_Q l in
  let n := List.length l in
  match n with
  | O => NaN
  | _ =>
      if Nat.even n
      then Num ((nth (n / 2 - 1) s 0 + nth (n / 2) s 0) / 2)
      else Num (nth (n / 2) s 0)
  end.

(** The sample variance (one degree of freedom removed): [NaN] for fewer
    than two observations. *)
Definition var (l : list Q) : cell :=
  match l with
  | [] | [_] => NaN
  | _ =>
      let m := (Qsum l / Qlen l)%Q in
      Num (Qsum (map (fun x => (x - m) * (x - m))%Q l) / (Qlen l - 1))
  end.

(** *** [DataFrame.sort_values]

    The script calls [sort_values(by='avg_gi', ascending=False)] and leaves
    the sorting algorithm at the library's default, which pandas documents
    as not stable.  What the call guarantees is stated as a relation
    between the table and the result: the rows whose key is a number come
    first, rearranged so that the key never increases, and the rows whose
    key is [NaN] follow in their original order. *)

Definition sort_key (by_col : string) (kr : string * row) : cell := col (snd kr) by_col.

Definition non_increasing (by_col : string) (l : list (string * row)) : Prop :=
  StronglySorted (fun r1 r2 => cell_leb (sort_key by_col r2) (sort_key by_col r1) = true) l.

Definition sorted_descending (f : frame) (by_col : string) (out : frame) : Prop :=
  columns out = columns f /\
  exists head,
    Permutation head (filter (fun kr => negb (is_nan (sort_key by_col kr))) (rows f)) /\
    non_increasing by_col head /\
    rows out = head ++ filter (fun kr => is_nan (sort_key by_col kr)) (rows f).

(** Two sorts by insertion that meet this contract.  With
    [reverse_ties = false] a row is put in front of the rows it ties
    with, and rows with equal keys keep their order: this is
    [sort_values] where the sorting kind leaves ties in place, pandas
    sorting the reversed column upwards and reversing the result.  With
    [reverse_ties = true] a row is put behind the rows it ties with, and
    they end up in the opposite order. *)
Definition goes_before (ascending reverse_ties : bool) (by_col : string)
           (x y : string * row) : bool :=
  let a := if ascending then sort_key by_col x else sort_key by_col y in
  let b := if ascending then sort_key by_col y else sort_key by_col x in
  if reverse_ties then cell_ltb a b else cell_leb a b.

Fixpoint insert_row (ascending reverse_ties : bool) (by_col : string)
         (x : string * row) (l : list (string * row)) : list (string * row) :=
  match l with
  | [] => [x]
  | y :: t =>
      if goes_before ascending reverse_ties by_col x y
      then x :: l
      else y :: insert_row ascending reverse_ties by_col x t
  end.

Definition insertion_sort_values (reverse_ties : bool)
           (f : frame) (by_col : string) (ascending : bool) : frame :=
  {| columns := columns f;
     rows := fold_right (insert_row ascending reverse_ties by_col) []
                        (filter (fun kr => negb (is_nan (sort_key by_col kr))) (rows f))
             ++ filter (fun kr => is_nan (sort_key by_col kr)) (rows f) |}.

(** *** The file system and the console *)

Inductive file : Type :=
| GamesCsv (df : list game)
| StatsCsv (f : frame)
| Directory
| OtherFile.

Record world : Type := {
  files : list (string * file);
  stdout : list string
}.

Inductive outcome : Type := Returned | Raised.

Fixpoint read_path (p : string) (fs : list (string * file)) : option file :=
  match fs with
  | [] => None
  | (p', v) :: t => if String.eqb p' p then Some v else read_path p t
  end.

(** [os.path.exists]. *)
Definition path_exists (p : string) (fs : list (string * file)) : bool :=
  match read_path p fs with Some _ => true | None => false end.

Definition write_path (p : string) (v : file) (fs : list (string * file))
  : list (string * file) :=
  (p, v) :: filter (fun e => negb (String.eqb (fst e) p)) fs.

(** [os.path.join(dir, name)] for a relative [name]. *)
Definition path_join (dir name : string) : string :=
  match String.length dir with
  | O => name
  | S n =>
      match String.get n dir with
      | Some "/"%char => (dir ++ name)%string
      | _ => (dir ++ "/" ++ name)%string
      end
  end.

(** *** Sample tables and stand-ins

    Used to run the pipeline on concrete inputs.  The stand-ins take the
    place of the library functions, which are variables below: a square
    root to four decimals, a solver that returns no differential, and a
    performance rating that adds the differential to the opposition. *)

Definition approx_sqrt (q : Q) : Q :=
  Z.sqrt (Qnum q * Zpos (Qden q) * 100000000) # (Qden q * 10000).

Definition no_differential (points games : cell) (threshold : Q) : cell := Num 0.

Definition add_differential (w avg_opponent_elo : cell) : cell :=
  cell_add avg_opponent_elo w.

(** The two games of the concrete scenario of the specification. *)
Definition two_games : list game :=
  [ {| White := "A"; Black := "B"; WhiteElo := 1500; BlackElo := 1400;
       WhiteResult := 1; BlackResult := 0;
       white_move_number := 40; black_move_number := 40;
       white_gi := 80; black_gi := 60; white_gi_raw := 78; black_gi_raw := 59;
       white_gpl := 12; black_gpl := 30; white_acpl := 20; black_acpl := 45 |};
    {| White := "B"; Black := "A"; WhiteElo := 1400; BlackElo := 1520;
       WhiteResult := 1 # 2; BlackResult := 1 # 2;
       white_move_number := 35; black_move_number := 35;
       white_gi := 70; black_gi := 75; white_gi_raw := 69; black_gi_raw := 74;
       white_gpl := 18; black_gpl := 15; white_acpl := 28; black_acpl := 25 |} ].

(** One game, both sides with the same gi. *)
Definition tied_game : list game :=
  [ {| White := "A"; Black := "B"; WhiteElo := 1500; BlackElo := 1400;
       WhiteResult := 1 # 2; BlackResult := 1 # 2;
       white_move_number := 40; black_move_number := 40;
       white_gi := 80; black_gi := 80; white_gi_raw := 78; black_gi_raw := 78;
       white_gpl := 12; black_gpl := 30; white_acpl := 20; black_acpl := 45 |} ].


(** Three games in which [A] and [C] carry a rating below zero as White. *)
Definition negative_elo_games : list game :=
  [ {| White := "A"; Black := "B"; WhiteElo := -100; BlackElo := 1400;
       WhiteResult := 0; BlackResult := 1;
       white_move_number := 40; black_move_number := 40;
       white_gi := 50; black_gi := 60; white_gi_raw := 50; black_gi_raw := 60;
       white_gpl := 12; black_gpl := 30; white_acpl := 20; black_acpl := 45 |};
    {| White := "B"; Black := "A"; WhiteElo := 1400; BlackElo := 1500;
       WhiteResult := 1; BlackResult := 0;
       white_move_number := 35; black_move_number := 35;
       white_gi := 70; black_gi := 40; white_gi_raw := 70; black_gi_raw := 40;
       white_gpl := 18; black_gpl := 15; white_acpl := 28; black_acpl := 25 |};
    {| White := "C"; Black := "B"; WhiteElo := -50; BlackElo := 1400;
       WhiteResult := 0; BlackResult := 1;
       white_move_number := 20; black_move_number := 20;
       white_gi := 30; black_gi := 65; white_gi_raw := 30; black_gi_raw := 65;
       white_gpl := 40; black_gpl := 10; white_acpl := 60; black_acpl := 15 |} ].

(** Three per-player tables of these games; [C] has no row in the second. *)
Definition sample_tables : list frame :=
  [ calculate_sum negative_elo_games White WhiteResult "white_result";
    calculate_sum negative_elo_games Black BlackResult "black_result";
    calculate_total_moves negative_elo_games ].

(** A file system without the input file. *)
Definition empty_world : world := {| files := []; stdout := [] |}.

Section Pipeline.

(** What the script takes from its libraries. *)
Variable sqrt : Q -> Q.
Variable optimize_w : cell -> cell -> Q -> cell.
Variable calculate_EPR : cell -> cell -> cell.
(** [sort_values frame by ascending], with what the call of the script
    is guaranteed. *)
Variable sort_values : frame -> string -> bool -> frame.
Hypothesis sort_values_descending :
  forall (f : frame) (by_col : string),
    sorted_descending f by_col (sort_values f by_col false).

Definition std (l : list Q) : cell :=
  match var l with
  | Num v => Num (sqrt v)
  | c => c
  end.

(** [value_col] is passed twice: as the accessor and as the name the
    three result columns are named after. *)
Definition calculate_statistics (df : list observation)
           (value_col : observation -> Q) (value_col_name : string) : frame :=
  let median_name := (value_col_name ++ "_median")%string in
  let var_name := (value_col_name ++ "_var")%string in
  let std_name := (value_col_name ++ "_std")%string in
  {| columns := [median_name; var_name; std_name];
     rows := map (fun g => (fst g, [(median_name, median (map value_col (snd g)));
                                    (var_name, var (map value_col (snd g)));
                                    (std_name, std (map value_col (snd g)))]))
                 (groupby Player df) |}.

Definition threshold_prob : Q := 3 # 4.

Definition calculate_tpr (player_stats : frame) : frame :=
  let player_stats :=
    assign "w_star"
           (fun r => optimize_w (col r "Points") (col r "total_game_count") threshold_prob)
           player_stats in
  assign "TPR"
         (fun r => py_round (calculate_EPR (col r "w_star") (col r "avg_opponent_elo")))
         player_stats.

(** *** The body of [main_stats], between reading and writing *)

Definition total_games (df : list game) : frame :=
  let white_games := calculate_games df White "White" in
  let black_games := calculate_games df Black "Black" in
  calculate_total_games white_games black_games.

(** The White-side rows followed by the Black-side rows, renamed to a
    common schema. *)
Definition combined_df (df : list game) : list observation :=
  map (fun g => {| Player := White g; gi := white_gi g; gi_raw := white_gi_raw g;
                   gpl := white_gpl g; acpl := white_acpl g |}) df
  ++ map (fun g => {| Player := Black g; gi := black_gi g; gi_raw := black_gi_raw g;
                      gpl := black_gpl g; acpl := black_acpl g |}) df.

(** [total_sums] as it stands after the [Points] column is added. *)
Definition total_sums (df : list game) : option frame :=
  let white_gi_sum := calculate_sum df White white_gi "white_gi" in
  let black_gi_sum := calculate_sum df Black black_gi "black_gi" in
  let white_gi_raw_sum := calculate_sum df White white_gi_raw "white_gi_raw" in
  let black_gi_raw_sum := calculate_sum df Black black_gi_raw "black_gi_raw" in
  let white_gpl_sum := calculate_sum df White white_gpl "white_gpl" in
  let black_gpl_sum := calculate_sum df Black black_gpl "black_gpl" in
  let white_acpl_sum := calculate_sum df White white_acpl "white_acpl" in
  let black_acpl_sum := calculate_sum df Black black_acpl "black_acpl" in
  let white_result_sum := calculate_sum df White WhiteResult "white_result" in
  let black_result_sum := calculate_sum df Black BlackResult "black_result" in
  let total_moves := calculate_total_moves df in
  let sums := [white_gi_sum; black_gi_sum; white_gi_raw_sum; black_gi_raw_sum;
               white_gpl_sum; black_gpl_sum; white_acpl_sum; black_acpl_sum;
               white_result_sum; black_result_sum] in
  match merge_dataframes (sums ++ [total_games df; total_moves]) with
  | None => None
  | Some total_sums =>
      let total_sums :=
        assign "total_gi_sum"
               (fun r => cell_add (col r "white_gi_sum") (col r "black_gi_sum"))
               total_sums in
      let total_sums :=
        assign "total_gi_raw_sum"
               (fun r => cell_add (col r "white_gi_raw_sum") (col r "black_gi_raw_sum"))
               total_sums in
      let total_sums :=
        assign "total_gpl_sum"
               (fun r => cell_add (col r "white_gpl_sum") (col r "black_gpl_sum"))
               total_sums in
      let total_sums :=
        assign "total_acpl_sum"
               (fun r => cell_add (col r "white_acpl_sum") (col r "black_acpl_sum"))
               total_sums in
      Some (assign "Points"
                   (fun r => cell_add (col r "white_result_sum") (col r "black_result_sum"))
                   total_sums)
  end.

(** [player_stats] as it stands before the output columns are selected. *)
Definition player_stats (df : list game) : option frame :=
  let gi_stats := calculate_statistics (combined_df df) gi "gi" in
  let gi_raw_stats := calculate_statistics (combined_df df) gi_raw "gi_raw" in
  let gpl_stats := calculate_statistics (combined_df df) gpl "gpl" in
  let acpl_stats := calculate_statistics (combined_df df) acpl "acpl" in
  match total_sums df with
  | None => None
  | Some total_sums =>
      match merge_dataframes [total_sums; gi_stats; gi_raw_stats; gpl_stats; acpl_stats] with
      | None => None
      | Some player_stats =>
          let player_stats := calculate_averages player_stats in
          let opponent_elo_sums := calculate_opponent_elo_sums df in
          let avg_opponent_elo :=
            calculate_avg_opponent_elo opponent_elo_sums (total_games df) in
          let player_stats := merge player_stats avg_opponent_elo Left in
          let player_stats := calculate_tpr player_stats in
          let average_elo := calculate_average_elo df in
          Some (merge player_stats average_elo Left)
      end
  end.

(** The output columns after [Player], which is the key of every row. *)
Definition columns_to_include : list string :=
  ["avg_gi"; "avg_gpl"; "avg_acpl"; "total_game_count"; "Points"; "Elo"; "TPR";
   "total_moves"; "White_games"; "Black_games"; "gi_median"; "gpl_median";
   "acpl_median"; "gi_std"; "gpl_std"; "acpl_std"; "avg_gi_raw"; "white_gpl_sum";
   "black_gpl_sum"; "white_acpl_sum"; "black_acpl_sum"; "white_result_sum";
   "black_result_sum"; "total_gpl_sum"; "gi_var"; "gi_raw_median"; "gi_raw_var";
   "gi_raw_std"; "gpl_var"; "acpl_var"].

(** The table handed to [save_to_csv]. *)
Definition output_table (df : list game) : option frame :=
  match player_stats df with
  | None => None
  | Some player_stats =>
      Some (sort_values (select columns_to_include player_stats) "avg_gi" false)
  end.

(** *** [main_stats]

    The run either returns or raises, and leaves a new state of the file
    system and the console.  A path that holds anything but a games table
    makes [read_csv] or the first column access raise; [os.makedirs]
    creates the directory entry; writing below a path that is not a
    directory raises. *)
Definition main_stats (w : world)
           (csv_all_games_path player_stats_output_dir : string) : world * outcome :=
  if negb (path_exists csv_all_games_path (files w)) then
    ({| files := files w;
        stdout := stdout w ++ [("File not found: " ++ csv_all_games_path)%string] |},
     Returned)
  else
    match read_path csv_all_games_path (files w) with
    | Some (GamesCsv df) =>
        match output_table df with
        | None => (w, Raised)
        | Some player_stats =>
            let fs1 :=
              if negb (path_exists player_stats_output_dir (files w))
              then (player_stats_output_dir, Directory) :: files w
              else files w in
            let output_file_path := path_join player_stats_output_dir "player_stats.csv" in
            match read_path player_stats_output_dir fs1 with
            | Some Directory =>
                ({| files := write_path output_file_path (StatsCsv player_stats) fs1;
                    stdout := stdout w |},
                 Returned)
            | _ => ({| files := fs1; stdout := stdout w |}, Raised)
            end
        end
    | _ => (w, Raised)
    end.

(** ** Tables as tabulated functions

    Every per-player table the script builds has one row per key and the
    same columns in every row: it tabulates a function from key and
    column name to cell.  The lemmas below follow each table operation on
    that function. *)

Fixpoint tab_row (cols : list string) (V : string -> cell) : row :=
  match cols with
  | [] => []
  | c :: t => (c, V c) :: tab_row t V
  end.

Definition tabulated (f : frame) (cols K : list string)
           (V : string -> string -> cell) : Prop :=
  columns f = cols /\ rows f = map (fun k => (k, tab_row cols (V k))) K.

Definition has_key (k : string) (K : list string) : bool := mem k K.

(** The cell of a key in a table that may lack the key: a join gap. *)
Definition at_key (K : list string) (V : string -> string -> cell)
           (k c : string) : cell :=
  if has_key k K then V k c else NaN.

(** The keys of an outer join. *)
Definition union_keys (Ka Kb : list string) : list string :=
  sorted_unique (Ka ++ Kb).

(** The cell of a table after [assign name g]. *)
Definition assigned (name : string) (g : row -> cell) (cols : list string)
           (V : string -> string -> cell) (k c : string) : cell :=
  if String.eqb c name then g (tab_row cols (V k)) else V k c.

(** The cell of an outer join of two tables with disjoint columns. *)
Definition joined (ca Ka : list string) (Va : string -> string -> cell)
           (Kb : list string) (Vb : string -> string -> cell) (k c : string) : cell :=
  if mem c ca then at_key Ka Va k c else at_key Kb Vb k c.

Definition disjoint (l1 l2 : list string) : bool :=
  forallb (fun c => negb (mem c l2)) l1.

Definition included (l1 l2 : list string) : bool :=
  forallb (fun c => mem c l2) l1.

(** The rows of one group of a [groupby]. *)
Definition group {A : Type} (key : A -> string) (df : list A) (k : string) : list A :=
  filter (fun a => String.eqb (key a) k) df.


(** ** What a player's row should hold

    The quantities of the specification, computed from the games table
    directly: sums and counts over the games a player has in one role,
    and the statistics over the pooled observations of a player. *)

Definition sum_as (side : game -> string) (value : game -> Q)
           (df : list game) (k : string) : Q :=
  Qsum (map value (group side df k)).

Definition games_as (side : game -> string) (df : list game) (k : string) : Q :=
  Qlen (group side df k).

Definition total_of (white_value black_value : game -> Q)
           (df : list game) (k : string) : Q :=
  (sum_as White white_value df k + sum_as Black black_value df k)%Q.

Definition game_count (df : list game) (k : string) : Q :=
  (games_as White df k + games_as Black df k)%Q.

Definition pooled (value : observation -> Q) (df : list game) (k : string) : list Q :=
  map value (group Player (combined_df df) k).

(** The average Elo in one role, zero for a role never played. *)
Definition average_elo_as (side : game -> string) (elo : game -> Q)
           (df : list game) (k : string) : cell :=
  fill 0 (mean (map elo (group side df k))).

Definition all_columns : list string :=
  ["white_gi_sum"; "black_gi_sum"; "white_gi_raw_sum"; "black_gi_raw_sum";
   "white_gpl_sum"; "black_gpl_sum"; "white_acpl_sum"; "black_acpl_sum";
   "white_result_sum"; "black_result_sum"; "White_games"; "Black_games";
   "total_game_count"; "total_moves"; "total_gi_sum"; "total_gi_raw_sum";
   "total_gpl_sum"; "total_acpl_sum"; "Points"; "gi_median"; "gi_var"; "gi_std";
   "gi_raw_median"; "gi_raw_var"; "gi_raw_std"; "gpl_median"; "gpl_var"; "gpl_std";
   "acpl_median"; "acpl_var"; "acpl_std"; "avg_gi"; "avg_gi_raw"; "avg_gpl";
   "avg_acpl"; "avg_opponent_elo"; "w_star"; "TPR"; "Elo"].

Section Expected.

Variable df : list game.
Variable k : string.

Let count : Q := game_count df k.
Let points : Q := total_of WhiteResult BlackResult df k.
Let opponents : Q := (total_of BlackElo WhiteElo df k / count)%Q.
Let w_star : cell := optimize_w (Num points) (Num count) threshold_prob.

(** The row of player [k] before the output columns are selected, column
    by column. *)
Definition player_row : row :=
  [("white_gi_sum", Num (sum_as White white_gi df k));
   ("black_gi_sum", Num (sum_as Black black_gi df k));
   ("white_gi_raw_sum", Num (sum_as White white_gi_raw df k));
   ("black_gi_raw_sum", Num (sum_as Black black_gi_raw df k));
   ("white_gpl_sum", Num (sum_as White white_gpl df k));
   ("black_gpl_sum", Num (sum_as Black black_gpl df k));
   ("white_acpl_sum", Num (sum_as White white_acpl df k));
   ("black_acpl_sum", Num (sum_as Black black_acpl df k));
   ("white_result_sum", Num (sum_as White WhiteResult df k));
   ("black_result_sum", Num (sum_as Black BlackResult df k));
   ("White_games", Num (games_as White df k));
   ("Black_games", Num (games_as Black df k));
   ("total_game_count", Num count);
   ("total_moves", Num (total_of white_move_number black_move_number df k));
   ("total_gi_sum", Num (total_of white_gi black_gi df k));
   ("total_gi_raw_sum", Num (total_of white_gi_raw black_gi_raw df k));
   ("total_gpl_sum", Num (total_of white_gpl black_gpl df k));
   ("total_acpl_sum", Num (total_of white_acpl black_acpl df k));
   ("Points", Num points);
   ("gi_median", fill 0 (median (pooled gi df k)));
   ("gi_var", fill 0 (var (pooled gi df k)));
   ("gi_std", fill 0 (std (pooled gi df k)));
   ("gi_raw_median", fill 0 (median (pooled gi_raw df k)));
   ("gi_raw_var", fill 0 (var (pooled gi_raw df k)));
   ("gi_raw_std", fill 0 (std (pooled gi_raw df k)));
   ("gpl_median", fill 0 (median (pooled gpl df k)));
   ("gpl_var", fill 0 (var (pooled gpl df k)));
   ("gpl_std", fill 0 (std (pooled gpl df k)));
   ("acpl_median", fill 0 (median (pooled acpl df k)));
   ("acpl_var", fill 0 (var (pooled acpl df k)));
   ("acpl_std", fill 0 (std (pooled acpl df k)));
   ("avg_gi", Num (total_of white_gi black_gi df k / count));
   ("avg_gi_raw", Num (total_of white_gi_raw black_gi_raw df k / count));
   ("avg_gpl", Num (total_of white_gpl black_gpl df k / count));
   ("avg_acpl", Num (total_of white_acpl black_acpl df k / count));
   ("avg_opponent_elo", Num opponents);
   ("w_star", w_star);
   ("TPR", py_round (calculate_EPR w_star (Num opponents)));
   ("Elo", estimated_elo [("avg_elo_white", average_elo_as White WhiteElo df k);
                          ("avg_elo_black", average_elo_as Black BlackElo df k)])].

End Expected.

(** The row of player [k] in the output, before sorting. *)
Definition output_row (df : list game) (k : string) : row :=
  map (fun c => (c, col (player_row df k) c)) columns_to_include.

Fixpoint nodupb (l : list string) : bool :=
  match l with
  | [] => true
  | x :: t => negb (mem x t) && nodupb t
  end.

(** The players of a games table. *)
Definition is_player (df : list game) (p : string) : Prop :=
  In p (map White df) \/ In p (map Black df).

(** The average Elo in one role as a number, zero for a role never
    played. *)
Definition avg_elo (side : game -> string) (elo : game -> Q)
           (df : list game) (p : string) : Q :=
  match map elo (group side df p) with
  | [] => 0
  | l => Qsum l / Qlen l
  end.

(** The pooled per-game observations of a player. *)
Definition observations (df : list game) (p : string) : list observation :=
  group Player (combined_df df) p.

(** A per-player table as the script builds them: one row per key, and
    in every row one cell for each column of the table. *)
Definition well_formed (f : frame) : Prop :=
  NoDup (keys f) /\ forall k r, In (k, r) (rows f) -> map fst r = columns f.

(** The cell of key [k] in column [c]; a gap when the table has no row
    for [k]. *)
Definition cell_at (f : frame) (k c : string) : cell :=
  match matching k f with
  | r :: _ => col r c
  | [] => NaN
  end.


Fixpoint same_names (l1 l2 : list string) : bool :=
  match l1, l2 with
  | [], [] => true
  | x :: t, y :: u => String.eqb x y && same_names t u
  | _, _ => false
  end.

Definition well_formedb (f : frame) : bool :=
  nodupb (keys f)
  && forallb (fun kr => same_names (map fst (snd kr)) (columns f)) (rows f).

(** ** Properties *)

(** *** Keys *)

Lemma mem_In (s : string) (l : list string) : mem s l = true <-> In s l.
Proof.
  unfold mem. rewrite existsb_exists. split.
  - intros [x [Hx He]]. apply String.eqb_eq in He. now subst.
  - intros H. exists s. split; [assumption | apply String.eqb_refl].
Qed.

Lemma mem_false (s : string) (l : list string) : mem s l = false <-> ~ In s l.
Proof.
  rewrite <- mem_In. destruct (mem s l); split; intros; congruence.
Qed.

Lemma mem_app (s : string) (l1 l2 : list string) :
  mem s (l1 ++ l2) = mem s l1 || mem s l2.
Proof. unfold mem. apply existsb_app. Qed.

Lemma In_insert_key (x k : string) (l : list string) :
  In x (insert_key k l) <-> x = k \/ In x l.
Proof.
  induction l as [|y t IH]; simpl.
  - intuition.
  - destruct (String.compare k y) eqn:E; simpl.
    + apply String.compare_eq_iff in E. subst. intuition.
    + intuition.
    + rewrite IH. intuition.
Qed.

Lemma In_sorted_unique (x : string) (l : list string) :
  In x (sorted_unique l) <-> In x l.
Proof.
  induction l as [|y t IH]; simpl.
  - reflexivity.
  - rewrite In_insert_key, IH. intuition.
Qed.

Lemma compare_Gt_lt (k x : string) :
  String.compare k x = Gt -> String_as_OT.lt x k.
Proof.
  intros E. apply String_as_OT.cmp_lt. unfold String_as_OT.cmp.
  rewrite String.compare_antisym, E. reflexivity.
Qed.

Lemma insert_key_sorted (k : string) (l : list string) :
  StronglySorted String_as_OT.lt l ->
  StronglySorted String_as_OT.lt (insert_key k l).
Proof.
  induction 1 as [|y t Hs IH Hall]; simpl.
  - repeat constructor.
  - destruct (String.compare k y) eqn:E.
    + now constructor.
    + apply String_as_OT.cmp_lt in E.
      constructor; [now constructor|].
      constructor; [assumption|].
      rewrite Forall_forall in *. intros z Hz.
      eapply String_as_OT.lt_trans; eauto.
    + constructor; [assumption|].
      rewrite Forall_forall in *. intros z Hz.
      apply In_insert_key in Hz. destruct Hz as [->|Hz]; auto using compare_Gt_lt.
Qed.

Lemma sorted_unique_sorted (l : list string) :
  StronglySorted String_as_OT.lt (sorted_unique l).
Proof.
  induction l; simpl; [constructor | now apply insert_key_sorted].
Qed.

Lemma NoDup_sorted_unique (l : list string) : NoDup (sorted_unique l).
Proof.
  generalize (sorted_unique_sorted l). generalize (sorted_unique l).
  induction 1 as [|y t Hs IH Hall]; constructor; auto.
  intros Hin. rewrite Forall_forall in Hall.
  apply (String_as_OT.lt_not_eq y y (Hall _ Hin)). reflexivity.
Qed.

Lemma mem_sorted_unique (s : string) (l : list string) :
  mem s (sorted_unique l) = mem s l.
Proof.
  apply eq_true_iff_eq. rewrite !mem_In. apply In_sorted_unique.
Qed.

(** *** [value_counts] *)

Lemma insert_count_perm (x : string * nat) (l : list (string * nat)) :
  Permutation (insert_count x l) (x :: l).
Proof.
  induction l as [|y t IH]; simpl; [reflexivity|].
  destruct (Nat.ltb (snd x) (snd y)); [|reflexivity].
  rewrite IH. apply perm_swap.
Qed.

Lemma sort_count_perm (l : list (string * nat)) :
  Permutation (fold_right insert_count [] l) l.
Proof.
  induction l as [|x t IH]; simpl; [reflexivity|].
  rewrite insert_count_perm. now constructor.
Qed.

Lemma In_distinct (x : string) (l : list string) : In x (distinct l) <-> In x l.
Proof.
  induction l as [|y t IH]; simpl; [reflexivity|].
  rewrite filter_In, IH, negb_true_iff, String.eqb_neq.
  destruct (String.eqb_spec x y); intuition.
Qed.

Lemma NoDup_distinct (l : list string) : NoDup (distinct l).
Proof.
  induction l as [|y t IH]; simpl; constructor.
  - rewrite filter_In, negb_true_iff, String.eqb_neq. intuition.
  - now apply NoDup_filter.
Qed.

Lemma value_counts_keys (l : list string) :
  Permutation (map fst (value_counts l)) (distinct l).
Proof.
  unfold value_counts. rewrite sort_count_perm, map_map. simpl.
  rewrite map_id. reflexivity.
Qed.

Lemma NoDup_value_counts (l : list string) : NoDup (map fst (value_counts l)).
Proof.
  eapply Permutation_NoDup; [symmetry; apply value_counts_keys | apply NoDup_distinct].
Qed.

Lemma In_value_counts_keys (x : string) (l : list string) :
  In x (map fst (value_counts l)) <-> In x l.
Proof.
  rewrite <- (In_distinct x l). split; apply Permutation_in;
    [|symmetry]; apply value_counts_keys.
Qed.

Lemma value_counts_count (l : list string) (kc : string * nat) :
  In kc (value_counts l) -> snd kc = count_of (fst kc) l.
Proof.
  intros H. unfold value_counts in H.
  apply (Permutation_in _ (sort_count_perm _)) in H.
  apply in_map_iff in H. destruct H as [k [<- _]]. reflexivity.
Qed.

(** *** Rows *)

Lemma tab_row_map (cols : list string) (V : string -> cell) :
  tab_row cols V = map (fun c => (c, V c)) cols.
Proof. induction cols; simpl; congruence. Qed.

Lemma tab_row_ext (cols : list string) (V V' : string -> cell) :
  (forall c, In c cols -> V c = V' c) -> tab_row cols V = tab_row cols V'.
Proof.
  induction cols as [|c t IH]; simpl; intros H; [reflexivity|].
  rewrite (H c), IH; auto.
Qed.

Lemma tab_row_app (c1 c2 : list string) (V : string -> cell) :
  tab_row (c1 ++ c2) V = tab_row c1 V ++ tab_row c2 V.
Proof. induction c1; simpl; congruence. Qed.

Lemma lookup_tab_row (cols : list string) (V : string -> cell) (c : string) :
  lookup c (tab_row cols V) = if mem c cols then Some (V c) else None.
Proof.
  induction cols as [|x t IH]; simpl; [reflexivity|].
  rewrite (String.eqb_sym c x).
  destruct (String.eqb_spec x c); simpl; [now subst | assumption].
Qed.

Lemma col_tab_row (cols : list string) (V : string -> cell) (c : string) :
  mem c cols = true -> col (tab_row cols V) c = V c.
Proof. intros H. unfold col. now rewrite lookup_tab_row, H. Qed.

Lemma tabulated_keys (f : frame) (cols K : list string) (V : string -> string -> cell) :
  tabulated f cols K V -> keys f = K.
Proof.
  intros [_ Hr]. unfold keys. rewrite Hr, map_map. simpl. apply map_id.
Qed.

(** *** Table operations *)

Lemma tab_agg {A : Type} (name : string) (f : list A -> cell)
      (key : A -> string) (df : list A) :
  tabulated (agg name f (groupby key df)) [name]
            (sorted_unique (map key df))
            (fun k _ => f (group key df k)).
Proof.
  split; [reflexivity|]. unfold agg, groupby. simpl. now rewrite map_map.
Qed.

Lemma tab_fillna (v : Q) (f : frame) (cols K : list string) (V : string -> string -> cell) :
  tabulated f cols K V ->
  tabulated (fillna v f) cols K (fun k c => fill v (V k c)).
Proof.
  intros [Hc Hr]. split; [assumption|]. unfold fillna. simpl.
  rewrite Hr, map_map. apply map_ext. intros k. simpl. f_equal.
  rewrite !tab_row_map, map_map. reflexivity.
Qed.

Lemma set_cell_new (name : string) (v : cell) (cols : list string) (V : string -> cell) :
  mem name cols = false ->
  set_cell name v (tab_row cols V) = tab_row cols V ++ [(name, v)].
Proof.
  induction cols as [|x t IH]; simpl; [reflexivity|].
  rewrite (String.eqb_sym name x).
  destruct (String.eqb x name); simpl; [discriminate|].
  intros H. now rewrite IH.
Qed.

Lemma tab_assign (name : string) (g : row -> cell) (f : frame)
      (cols K : list string) (V : string -> string -> cell) :
  tabulated f cols K V ->
  mem name cols = false ->
  tabulated (assign name g f) (cols ++ [name]) K (assigned name g cols V).
Proof.
  intros [Hc Hr] Hn. unfold assign, assigned. split; simpl.
  - now rewrite Hc, Hn.
  - rewrite Hr, map_map. apply map_ext. intros k. simpl. f_equal.
    rewrite set_cell_new by assumption.
    rewrite tab_row_app. simpl. rewrite String.eqb_refl. f_equal.
    apply tab_row_ext. intros c Hin.
    destruct (String.eqb_spec c name); [|reflexivity].
    subst. apply mem_In in Hin. congruence.
Qed.

Lemma tab_select (cols' : list string) (f : frame)
      (cols K : list string) (V : string -> string -> cell) :
  tabulated f cols K V ->
  included cols' cols = true ->
  tabulated (select cols' f) cols' K V.
Proof.
  intros [Hc Hr] Hi. unfold select. split; simpl; [reflexivity|].
  rewrite Hr, map_map. apply map_ext. intros k. simpl.
  rewrite <- tab_row_map. apply f_equal. apply tab_row_ext. intros c Hin.
  apply col_tab_row. unfold included in Hi. rewrite forallb_forall in Hi. auto.
Qed.

(** *** Joins *)

Lemma flat_map_singleton {A B : Type} (f : A -> list B) (g : A -> B) (l : list A) :
  (forall x, In x l -> f x = [g x]) -> flat_map f l = map g l.
Proof.
  induction l as [|x t IH]; simpl; intros H; [reflexivity|].
  rewrite H by auto. simpl. f_equal. auto.
Qed.

Lemma flat_map_filter {A B C : Type} (f : B -> list C) (g : A -> B) (h : A -> C)
      (p : A -> bool) (l : list A) :
  (forall x, In x l -> f (g x) = if p x then [h x] else []) ->
  flat_map f (map g l) = map h (filter p l).
Proof.
  induction l as [|x t IH]; simpl; intros H; [reflexivity|].
  rewrite H by auto. destruct (p x); simpl; rewrite IH by auto; reflexivity.
Qed.

Lemma filter_key_tab (K : list string) (R : string -> row) (k : string) :
  NoDup K ->
  filter (fun kr => String.eqb (fst kr) k) (map (fun k => (k, R k)) K)
  = if mem k K then [(k, R k)] else [].
Proof.
  induction 1 as [|x t Hx Hnd IH]; simpl; [reflexivity|].
  rewrite (String.eqb_sym k x).
  destruct (String.eqb_spec x k); simpl.
  - subst. rewrite IH. apply mem_false in Hx. now rewrite Hx.
  - exact IH.
Qed.

Lemma matching_tab (f : frame) (cols K : list string) (V : string -> string -> cell)
      (k : string) :
  tabulated f cols K V -> NoDup K ->
  matching k f = if has_key k K then [tab_row cols (V k)] else [].
Proof.
  intros [_ Hr] Hnd. unfold matching, has_key.
  rewrite Hr, (filter_key_tab K (fun k => tab_row cols (V k))) by assumption.
  destruct (mem k K); reflexivity.
Qed.

Lemma nan_row_tab (cols : list string) : nan_row cols = tab_row cols (fun _ => NaN).
Proof. symmetry. apply tab_row_map. Qed.

(** The rows of an outer join of two tables with unique keys, whatever
    their column names. *)
Lemma merge_outer_rows (a b : frame) (ca cb Ka Kb : list string)
      (Va Vb : string -> string -> cell) :
  tabulated a ca Ka Va -> tabulated b cb Kb Vb -> NoDup Ka -> NoDup Kb ->
  rows (merge a b Outer)
  = map (fun k => (k, join_rows a b (tab_row ca (at_key Ka Va k))
                                    (tab_row cb (at_key Kb Vb k))))
        (union_keys Ka Kb).
Proof.
  intros Ha Hb Hna Hnb.
  pose proof (tabulated_keys _ _ _ _ Ha) as HKa.
  pose proof (tabulated_keys _ _ _ _ Hb) as HKb.
  unfold union_keys. simpl. rewrite HKa, HKb. apply flat_map_singleton. intros k Hk.
  apply In_sorted_unique, in_app_iff in Hk. rewrite <- !mem_In in Hk.
  unfold pair_up.
  rewrite (matching_tab _ _ _ _ k Ha Hna), (matching_tab _ _ _ _ k Hb Hnb).
  destruct Ha as [Hca _], Hb as [Hcb _]. rewrite Hca, Hcb, !nan_row_tab.
  unfold at_key. fold (has_key k Ka) in Hk. fold (has_key k Kb) in Hk.
  destruct (has_key k Ka), (has_key k Kb); simpl; try reflexivity.
  destruct Hk; discriminate.
Qed.

Lemma suffixed_disjoint (other : list string) (sfx : string) (cols : list string) :
  disjoint cols other = true -> map (suffixed other sfx) cols = cols.
Proof.
  unfold disjoint, suffixed. induction cols as [|c t IH]; simpl; [reflexivity|].
  intros H. apply andb_true_iff in H. destruct H as [H1 H2].
  apply negb_true_iff in H1. rewrite H1, IH by assumption. reflexivity.
Qed.

Lemma rename_row_disjoint (other : list string) (sfx : string) (cols : list string)
      (V : string -> cell) :
  disjoint cols other = true ->
  rename_row (suffixed other sfx) (tab_row cols V) = tab_row cols V.
Proof.
  unfold disjoint, suffixed, rename_row. induction cols as [|c t IH]; simpl; [reflexivity|].
  intros H. apply andb_true_iff in H. destruct H as [H1 H2].
  apply negb_true_iff in H1. rewrite H1, IH by assumption. reflexivity.
Qed.

Lemma disjoint_spec (l1 l2 : list string) :
  disjoint l1 l2 = true <-> (forall c, In c l1 -> In c l2 -> False).
Proof.
  unfold disjoint. rewrite forallb_forall. split.
  - intros H c H1 H2. specialize (H c H1). apply negb_true_iff, mem_false in H. auto.
  - intros H c H1. apply negb_true_iff, mem_false. intros H2. eauto.
Qed.

Lemma disjoint_sym (l1 l2 : list string) : disjoint l1 l2 = true -> disjoint l2 l1 = true.
Proof. rewrite !disjoint_spec. eauto. Qed.

Lemma join_rows_tab (a b : frame) (ca cb : list string) (Va Vb : string -> cell) :
  columns a = ca -> columns b = cb -> disjoint ca cb = true ->
  join_rows a b (tab_row ca Va) (tab_row cb Vb)
  = tab_row (ca ++ cb) (fun c => if mem c ca then Va c else Vb c).
Proof.
  intros Hca Hcb Hd. unfold join_rows. rewrite Hca, Hcb.
  rewrite !rename_row_disjoint by auto using disjoint_sym.
  rewrite tab_row_app. f_equal; apply tab_row_ext; intros c Hc.
  - apply mem_In in Hc. now rewrite Hc.
  - destruct (mem c ca) eqn:E; [|reflexivity].
    apply mem_In in E. rewrite disjoint_spec in Hd. destruct (Hd c E Hc).
Qed.

Lemma merge_columns_disjoint (a b : frame) (h : how) :
  disjoint (columns a) (columns b) = true ->
  columns (merge a b h) = columns a ++ columns b.
Proof.
  intros Hd. simpl. rewrite !suffixed_disjoint by auto using disjoint_sym. reflexivity.
Qed.

Lemma tab_merge_outer (a b : frame) (ca cb Ka Kb : list string)
      (Va Vb : string -> string -> cell) :
  tabulated a ca Ka Va -> tabulated b cb Kb Vb -> NoDup Ka -> NoDup Kb ->
  disjoint ca cb = true ->
  tabulated (merge a b Outer) (ca ++ cb) (union_keys Ka Kb)
            (joined ca Ka Va Kb Vb).
Proof.
  intros Ha Hb Hna Hnb Hd. unfold joined. split.
  - destruct Ha as [Hca _], Hb as [Hcb _]. subst ca cb.
    now apply merge_columns_disjoint.
  - rewrite (merge_outer_rows _ _ _ _ _ _ _ _ Ha Hb Hna Hnb).
    apply map_ext. intros k. f_equal.
    destruct Ha as [Hca _], Hb as [Hcb _]. now apply join_rows_tab.
Qed.

Lemma tab_merge_left (a b : frame) (ca cb Ka Kb : list string)
      (Va Vb : string -> string -> cell) :
  tabulated a ca Ka Va -> tabulated b cb Kb Vb -> NoDup Kb ->
  disjoint ca cb = true ->
  tabulated (merge a b Left) (ca ++ cb) Ka
            (fun k c => if mem c ca then Va k c else at_key Kb Vb k c).
Proof.
  intros Ha Hb Hnb Hd. split.
  - destruct Ha as [Hca _], Hb as [Hcb _]. subst ca cb.
    now apply merge_columns_disjoint.
  - simpl. destruct Ha as [Hca Hra]. rewrite Hra.
    rewrite <- (filter_true Ka) at 2.
    apply (flat_map_filter _ _ _ (fun _ => true)). intros k _. simpl.
    unfold pair_up. rewrite (matching_tab _ _ _ _ k Hb Hnb).
    destruct Hb as [Hcb _]. rewrite Hcb, nan_row_tab. unfold at_key.
    destruct (has_key k Kb); simpl;
      rewrite (join_rows_tab a b ca cb) by assumption; reflexivity.
Qed.

Lemma tab_merge_inner (a b : frame) (ca cb Ka Kb : list string)
      (Va Vb : string -> string -> cell) :
  tabulated a ca Ka Va -> tabulated b cb Kb Vb -> NoDup Kb ->
  disjoint ca cb = true ->
  tabulated (merge a b Inner) (ca ++ cb) (filter (fun k => has_key k Kb) Ka)
            (fun k c => if mem c ca then Va k c else Vb k c).
Proof.
  intros Ha Hb Hnb Hd. split.
  - destruct Ha as [Hca _], Hb as [Hcb _]. subst ca cb.
    now apply merge_columns_disjoint.
  - simpl. destruct Ha as [Hca Hra]. rewrite Hra.
    apply flat_map_filter. intros k _. simpl.
    unfold pair_up. rewrite (matching_tab _ _ _ _ k Hb Hnb).
    destruct Hb as [Hcb _].
    destruct (has_key k Kb); simpl; [|reflexivity].
    rewrite (join_rows_tab a b ca cb) by assumption. reflexivity.
Qed.

(** *** The tables the script starts from *)

Lemma tab_calculate_sum (df : list game) (group_col : game -> string)
      (value_col : game -> Q) (prefix : string) :
  tabulated (calculate_sum df group_col value_col prefix)
            [(prefix ++ "_sum")%string]
            (sorted_unique (map group_col df))
            (fun k _ => Num (sum_as group_col value_col df k)).
Proof.
  apply (tab_agg _ (fun g => Num (Qsum (map value_col g)))).
Qed.

Lemma count_of_group (side : game -> string) (df : list game) (k : string) :
  count_of k (map side df) = List.length (group side df k).
Proof.
  unfold count_of, group. induction df as [|g t IH]; simpl; [reflexivity|].
  rewrite (String.eqb_sym k (side g)).
  destruct (String.eqb (side g) k); simpl; congruence.
Qed.

Lemma tab_calculate_games (df : list game) (player_col : game -> string)
      (player_col_name : string) :
  tabulated (calculate_games df player_col player_col_name)
            [(player_col_name ++ "_games")%string]
            (map fst (value_counts (map player_col df)))
            (fun k _ => Num (games_as player_col df k)).
Proof.
  split; [reflexivity|]. unfold calculate_games. simpl.
  rewrite map_map. apply map_ext_in. intros kc Hin.
  rewrite (value_counts_count _ _ Hin), count_of_group. reflexivity.
Qed.

Lemma tab_calculate_statistics (df : list observation) (value_col : observation -> Q)
      (name : string) :
  String.eqb (name ++ "_var") (name ++ "_median") = false ->
  String.eqb (name ++ "_std") (name ++ "_median") = false ->
  String.eqb (name ++ "_std") (name ++ "_var") = false ->
  tabulated (calculate_statistics df value_col name)
            [(name ++ "_median")%string; (name ++ "_var")%string; (name ++ "_std")%string]
            (sorted_unique (map Player df))
            (fun k c =>
               if String.eqb c (name ++ "_median") then median (map value_col (group Player df k))
               else if String.eqb c (name ++ "_var") then var (map value_col (group Player df k))
               else std (map value_col (group Player df k))).
Proof.
  intros H1 H2 H3. split; [reflexivity|].
  unfold calculate_statistics, groupby. simpl. rewrite map_map.
  apply map_ext. intros k. simpl.
  rewrite !String.eqb_refl, H1, H2, H3. reflexivity.
Qed.

(** *** Which keys a table has *)

Lemma has_key_sorted_unique (k : string) (l : list string) :
  has_key k (sorted_unique l) = has_key k l.
Proof. apply mem_sorted_unique. Qed.

Lemma has_key_union (k : string) (Ka Kb : list string) :
  has_key k (union_keys Ka Kb) = has_key k Ka || has_key k Kb.
Proof. unfold union_keys, has_key. rewrite mem_sorted_unique. apply mem_app. Qed.

Lemma NoDup_union_keys (Ka Kb : list string) : NoDup (union_keys Ka Kb).
Proof. apply NoDup_sorted_unique. Qed.

Lemma has_key_app (k : string) (l1 l2 : list string) :
  has_key k (l1 ++ l2) = has_key k l1 || has_key k l2.
Proof. apply mem_app. Qed.

Lemma has_key_value_counts (k : string) (l : list string) :
  has_key k (map fst (value_counts l)) = has_key k l.
Proof.
  unfold has_key. apply eq_true_iff_eq. rewrite !mem_In.
  apply In_value_counts_keys.
Qed.

Lemma has_key_filter (k : string) (Ka Kb : list string) :
  has_key k (filter (fun k => has_key k Kb) Ka) = has_key k Ka && has_key k Kb.
Proof.
  unfold has_key. apply eq_true_iff_eq.
  rewrite andb_true_iff, !mem_In, filter_In, mem_In. reflexivity.
Qed.

Lemma has_key_combined (k : string) (df : list game) :
  has_key k (map Player (combined_df df))
  = has_key k (map White df) || has_key k (map Black df).
Proof.
  unfold combined_df. rewrite map_app, has_key_app, !map_map. reflexivity.
Qed.

Lemma group_absent {A : Type} (key : A -> string) (df : list A) (k : string) :
  has_key k (map key df) = false -> group key df k = [].
Proof.
  unfold has_key, group. induction df as [|g t IH]; simpl; [reflexivity|].
  rewrite (String.eqb_sym k (key g)).
  destruct (String.eqb (key g) k); simpl; [discriminate | assumption].
Qed.

Lemma group_present {A : Type} (key : A -> string) (df : list A) (k : string) :
  has_key k (map key df) = true -> (0 < List.length (group key df k))%nat.
Proof.
  unfold has_key, group. induction df as [|g t IH]; simpl; [discriminate|].
  rewrite (String.eqb_sym k (key g)).
  destruct (String.eqb (key g) k); simpl; [lia | assumption].
Qed.

(** The one join of the script whose two sides carry the same column:
    the column comes out twice, with the suffixes [_x] and [_y]. *)
Lemma tab_merge_outer_same (a b : frame) (c : string) (Ka Kb : list string)
      (Va Vb : string -> string -> cell) :
  tabulated a [c] Ka Va -> tabulated b [c] Kb Vb -> NoDup Ka -> NoDup Kb ->
  String.eqb (c ++ "_y") (c ++ "_x") = false ->
  tabulated (merge a b Outer) [(c ++ "_x")%string; (c ++ "_y")%string]
            (union_keys Ka Kb)
            (fun k c' => if String.eqb c' (c ++ "_x")
                         then at_key Ka Va k c else at_key Kb Vb k c).
Proof.
  intros Ha Hb Hna Hnb Hne. split.
  - destruct Ha as [Hca _], Hb as [Hcb _]. simpl. rewrite Hca, Hcb. simpl.
    unfold suffixed, mem. simpl. rewrite String.eqb_refl. reflexivity.
  - rewrite (merge_outer_rows _ _ _ _ _ _ _ _ Ha Hb Hna Hnb).
    apply map_ext. intros k. apply f_equal.
    destruct Ha as [Hca _], Hb as [Hcb _]. unfold join_rows. rewrite Hca, Hcb.
    simpl. unfold suffixed, mem. simpl. rewrite !String.eqb_refl, Hne. reflexivity.
Qed.

(** A row is determined by its cells when no column name repeats. *)
Lemma tab_row_eq (r : row) (V : string -> cell) :
  NoDup (map fst r) ->
  Forall (fun c => V c = col r c) (map fst r) ->
  tab_row (map fst r) V = r.
Proof.
  induction r as [|[c v] t IH]; simpl; intros Hnd H; [reflexivity|].
  inversion_clear Hnd as [|? ? Hc Ht]. inversion_clear H as [|? ? H1 H2].
  f_equal.
  - rewrite H1. unfold col. simpl. now rewrite String.eqb_refl.
  - apply IH; [assumption|].
    rewrite Forall_forall in *. intros c' Hc'. rewrite (H2 c' Hc').
    unfold col. simpl.
    destruct (String.eqb_spec c c'); [subst; contradiction | reflexivity].
Qed.

(** *** Arithmetic on cells *)

(** [round_half_even] returns a nearest integer, the even one on a tie. *)
Lemma round_half_even_nearest (q : Q) :
  Qabs (q - inject_Z (round_half_even q)) <= 1 # 2.
Proof.
  unfold round_half_even.
  pose proof (Qfloor_le q) as Hle. pose proof (Qlt_floor q) as Hlt.
  rewrite inject_Z_plus in Hlt. change (inject_Z 1) with 1 in Hlt.
  set (f := Qfloor q) in *.
  apply Qabs_Qle_condition.
  destruct (q - inject_Z f ?= 1 # 2)%Q eqn:E.
  - apply Qeq_alt in E.
    destruct (Z.even f); [|rewrite inject_Z_plus; change (inject_Z 1) with 1]; lra.
  - apply Qlt_alt in E. lra.
  - apply Qgt_alt in E. rewrite inject_Z_plus. change (inject_Z 1) with 1. lra.
Qed.

Lemma round_half_even_tie (q : Q) :
  q - inject_Z (Qfloor q) == 1 # 2 -> Z.even (round_half_even q) = true.
Proof.
  intros H. unfold round_half_even. apply Qeq_alt in H. rewrite H.
  destruct (Z.even (Qfloor q)) eqn:E; [assumption|].
  rewrite Z.add_1_r, Z.even_succ, <- Z.negb_even, E. reflexivity.
Qed.

Lemma fill_fill (v : Q) (c : cell) : fill v (fill v c) = fill v c.
Proof. now destruct c. Qed.

Lemma cell_div_num (x y : Q) :
  Qeq_bool y 0 = false -> cell_div (Num x) (Num y) = Num (x / y).
Proof. intros H. simpl. now rewrite H. Qed.

Lemma count_nonzero (a b : nat) :
  (0 < a + b)%nat ->
  Qeq_bool (inject_Z (Z.of_nat a) + inject_Z (Z.of_nat b)) 0 = false.
Proof.
  intros H. unfold Qeq_bool, Qplus, inject_Z. simpl.
  apply Z.eqb_neq. lia.
Qed.

(** *** The table before the output columns are selected *)

Create HintDb keys.
#[local] Hint Resolve NoDup_sorted_unique NoDup_value_counts NoDup_union_keys : keys.

Create Rewrite HintDb has_key.
#[local] Hint Rewrite has_key_union has_key_sorted_unique has_key_app
  has_key_value_counts has_key_filter has_key_combined : has_key.

Ltac nodup := solve [auto using NoDup_filter with keys].

(** Follows the construction of a table and builds the function it
    tabulates. *)
Ltac tab :=
  lazymatch goal with
  | |- tabulated (fillna _ _) _ _ _ => eapply tab_fillna; tab
  | |- tabulated (merge _ _ Outer) _ _ _ =>
      first [ eapply tab_merge_outer; [tab | tab | nodup | nodup | reflexivity]
            | eapply tab_merge_outer_same; [tab | tab | nodup | nodup | reflexivity] ]
  | |- tabulated (merge _ _ Left) _ _ _ =>
      eapply tab_merge_left; [tab | tab | nodup | reflexivity]
  | |- tabulated (merge _ _ Inner) _ _ _ =>
      eapply tab_merge_inner; [tab | tab | nodup | reflexivity]
  | |- tabulated (assign _ _ _) _ _ _ => eapply tab_assign; [tab | reflexivity]
  | |- tabulated (select _ _) _ _ _ => eapply tab_select; [tab | reflexivity]
  | |- tabulated (calculate_sum _ _ _ _) _ _ _ => apply tab_calculate_sum
  | |- tabulated (calculate_games _ _ _) _ _ _ => apply tab_calculate_games
  | |- tabulated (calculate_statistics _ _ _) _ _ _ =>
      apply tab_calculate_statistics; reflexivity
  | |- tabulated (agg _ _ (groupby _ _)) _ _ _ => apply tab_agg
  end.

(** Evaluates a cell of a tabulated function at a given column name. *)
Ltac evalcell :=
  lazy [tab_row col lookup mem existsb String.eqb Ascii.eqb Bool.eqb andb orb negb app
        String.append at_key assigned joined player_row all_columns].

Ltac count_pos df k Hw Hb :=
  first [ apply (count_nonzero (List.length (group White df k))
                               (List.length (group Black df k)))
        | apply (count_nonzero (List.length (group White df k)) 0)
        | apply (count_nonzero 0 (List.length (group Black df k))) ];
  try pose proof (group_present White df k Hw);
  try pose proof (group_present Black df k Hb);
  lia.

Lemma player_stats_tab (df : list game) :
  exists ps cols K V,
    player_stats df = Some ps /\ tabulated ps cols K V /\ cols = all_columns /\
    NoDup K /\
    (forall k, has_key k K = has_key k (map White df) || has_key k (map Black df)) /\
    (forall k, has_key k K = true ->
               Forall (fun c => V k c = col (player_row df k) c) all_columns).
Proof.
  eexists. eexists. eexists. eexists.
  cbv [player_stats total_sums total_games calculate_total_games calculate_total_moves
       merge_dataframes app fold_left calculate_averages calculate_tpr
       calculate_opponent_elo_sums calculate_avg_opponent_elo calculate_average_elo].
  split; [reflexivity|].
  split; [tab|].
  split; [reflexivity|].
  split; [nodup|].
  split.
  - intros k. autorewrite with has_key.
    destruct (has_key k (map White df)), (has_key k (map Black df)); reflexivity.
  - intros k Hk. autorewrite with has_key in Hk.
    unfold all_columns. repeat apply Forall_cons; [..|apply Forall_nil].
    all: evalcell; autorewrite with has_key.
    all: destruct (has_key k (map White df)) eqn:Hw,
                  (has_key k (map Black df)) eqn:Hb; try discriminate Hk.
    all: cbn [orb andb fill cell_add].
    all: rewrite ?fill_fill.
    all: rewrite ?cell_div_num by count_pos df k Hw Hb.
    all: unfold total_of, game_count, pooled, average_elo_as; unfold sum_as, games_as.
    all: try rewrite (group_absent White df k Hw).
    all: try rewrite (group_absent Black df k Hb).
    all: reflexivity.
Qed.

Lemma nodupb_NoDup (l : list string) : nodupb l = true -> NoDup l.
Proof.
  induction l as [|x t IH]; simpl; intros H; constructor;
    apply andb_true_iff in H; destruct H as [H1 H2]; auto.
  now apply negb_true_iff, mem_false in H1.
Qed.

Lemma has_key_player (df : list game) (p : string) :
  has_key p (map White df) || has_key p (map Black df) = true <-> is_player df p.
Proof.
  unfold has_key, is_player. now rewrite orb_true_iff, !mem_In.
Qed.

(** [player_stats] returns a table with one row per player, and the row
    of a player is [player_row]. *)
Lemma player_stats_rows (df : list game) :
  exists ps K,
    player_stats df = Some ps /\
    columns ps = all_columns /\
    rows ps = map (fun k => (k, player_row df k)) K /\
    NoDup K /\
    (forall p, In p K <-> is_player df p).
Proof.
  destruct (player_stats_tab df) as (ps & cols & K & V & Hps & Htab & -> & Hnd & HK & HV).
  exists ps, K. destruct Htab as [Hc Hr].
  repeat split; try assumption.
  - rewrite Hr. apply map_ext_in. intros k Hk. f_equal.
    change all_columns with (map fst (player_row df k)).
    apply tab_row_eq.
    + apply nodupb_NoDup. reflexivity.
    + apply HV. now apply mem_In.
  - intros Hp. apply has_key_player. rewrite <- HK. now apply mem_In.
  - intros Hp. apply mem_In. fold (has_key p K). rewrite HK. now apply has_key_player.
Qed.

(** *** The output table *)

Lemma filter_all {A : Type} (f : A -> bool) (l : list A) :
  (forall x, In x l -> f x = true) -> filter f l = l.
Proof.
  induction l as [|x t IH]; simpl; intros H; [reflexivity|].
  rewrite H by auto. f_equal. auto.
Qed.

Lemma filter_none {A : Type} (f : A -> bool) (l : list A) :
  (forall x, In x l -> f x = false) -> filter f l = [].
Proof.
  induction l as [|x t IH]; simpl; intros H; [reflexivity|].
  rewrite H by auto. auto.
Qed.

Lemma col_output_row (df : list game) (k c : string) :
  mem c columns_to_include = true ->
  col (output_row df k) c = col (player_row df k) c.
Proof.
  intros H. unfold output_row. rewrite <- tab_row_map. now apply col_tab_row.
Qed.

Lemma avg_gi_number (df : list game) (k : string) :
  col (output_row df k) "avg_gi"
  = Num (total_of white_gi black_gi df k / game_count df k).
Proof. rewrite col_output_row by reflexivity. reflexivity. Qed.

(** [output_table] returns the selected columns of the rows of
    [player_stats], rearranged so that [avg_gi] never increases. *)
Lemma output_table_rows (df : list game) :
  exists ps out K,
    player_stats df = Some ps /\
    output_table df = Some out /\
    rows ps = map (fun k => (k, player_row df k)) K /\
    columns out = columns_to_include /\
    Permutation (rows out) (map (fun k => (k, output_row df k)) K) /\
    non_increasing "avg_gi" (rows out) /\
    NoDup K /\
    (forall p, In p K <-> is_player df p).
Proof.
  destruct (player_stats_rows df) as (ps & K & Hps & Hc & Hr & Hnd & HK).
  unfold output_table. rewrite Hps.
  eexists. eexists. exists K.
  split; [reflexivity|]. split; [reflexivity|]. split; [assumption|].
  destruct (sort_values_descending (select columns_to_include ps) "avg_gi")
    as (Hcols & head & Hperm & Hsorted & Hrows).
  assert (Hsel : rows (select columns_to_include ps)
                 = map (fun k => (k, output_row df k)) K).
  { simpl. rewrite Hr, map_map. reflexivity. }
  rewrite Hsel in Hperm, Hrows.
  rewrite filter_all in Hperm.
  2:{ intros kr Hin. apply in_map_iff in Hin. destruct Hin as [k [<- _]].
      unfold sort_key. cbn [snd]. now rewrite avg_gi_number. }
  rewrite filter_none, app_nil_r in Hrows.
  2:{ intros kr Hin. apply in_map_iff in Hin. destruct Hin as [k [<- _]].
      unfold sort_key. cbn [snd]. now rewrite avg_gi_number. }
  rewrite Hrows. repeat split; try assumption; apply HK; assumption.
Qed.

(** *** The two insertion sorts meet the contract of [sort_values] *)

Lemma Qleb_le (x y : Q) : Qleb x y = true <-> (x <= y)%Q.
Proof.
  unfold Qleb. rewrite Qle_alt. destruct (x ?= y)%Q; split; congruence.
Qed.

Lemma Qltb_lt (x y : Q) : Qltb x y = true <-> (x < y)%Q.
Proof.
  unfold Qltb. rewrite Qlt_alt. destruct (x ?= y)%Q; split; congruence.
Qed.

Lemma cell_leb_trans (a b c : cell) :
  cell_leb a b = true -> cell_leb b c = true -> cell_leb a c = true.
Proof.
  destruct a, b, c; simpl; try congruence.
  rewrite !Qleb_le. apply Qle_trans.
Qed.

Lemma cell_ltb_leb (a b : cell) : cell_ltb a b = true -> cell_leb a b = true.
Proof.
  destruct a, b; simpl; try congruence.
  rewrite Qltb_lt, Qleb_le. apply Qlt_le_weak.
Qed.

Lemma cell_leb_total (a b : cell) :
  is_nan a = false -> is_nan b = false ->
  cell_leb a b = false -> cell_leb b a = true.
Proof.
  destruct a, b; simpl; try congruence. intros _ _ H.
  apply Qleb_le. destruct (Qlt_le_dec q0 q) as [Hlt|Hle].
  - now apply Qlt_le_weak.
  - apply Qleb_le in Hle. congruence.
Qed.

Lemma cell_ltb_false (a b : cell) :
  is_nan a = false -> is_nan b = false ->
  cell_ltb a b = false -> cell_leb b a = true.
Proof.
  destruct a, b; simpl; try congruence. intros _ _ H.
  apply Qleb_le. destruct (Qlt_le_dec q q0) as [Hlt|Hle]; [|assumption].
  apply Qltb_lt in Hlt. congruence.
Qed.

Lemma insert_row_perm (ascending reverse_ties : bool) (by_col : string)
      (x : string * row) (l : list (string * row)) :
  Permutation (insert_row ascending reverse_ties by_col x l) (x :: l).
Proof.
  induction l as [|y t IH]; simpl; [reflexivity|].
  destruct (goes_before ascending reverse_ties by_col x y); [reflexivity|].
  rewrite IH. apply perm_swap.
Qed.

Lemma insertion_perm (ascending reverse_ties : bool) (by_col : string)
      (l : list (string * row)) :
  Permutation (fold_right (insert_row ascending reverse_ties by_col) [] l) l.
Proof.
  induction l as [|x t IH]; simpl; [reflexivity|].
  rewrite insert_row_perm. now constructor.
Qed.

Lemma insert_row_sorted (reverse_ties : bool) (by_col : string)
      (x : string * row) (l : list (string * row)) :
  is_nan (sort_key by_col x) = false ->
  Forall (fun y => is_nan (sort_key by_col y) = false) l ->
  non_increasing by_col l ->
  non_increasing by_col (insert_row false reverse_ties by_col x l).
Proof.
  intros Hx Hl Hs. unfold non_increasing in *.
  induction Hs as [|y t Hs IH Hall]; simpl.
  - repeat constructor.
  - inversion_clear Hl as [|? ? Hy Ht].
    assert (Hxy : goes_before false reverse_ties by_col x y = true ->
                  cell_leb (sort_key by_col y) (sort_key by_col x) = true).
    { unfold goes_before. destruct reverse_ties; auto using cell_ltb_leb. }
    assert (Hyx : goes_before false reverse_ties by_col x y = false ->
                  cell_leb (sort_key by_col x) (sort_key by_col y) = true).
    { unfold goes_before. destruct reverse_ties;
        auto using cell_ltb_false, cell_leb_total. }
    destruct (goes_before false reverse_ties by_col x y).
    + constructor; [now constructor|].
      constructor; [auto|].
      rewrite Forall_forall in *. intros z Hz.
      eapply cell_leb_trans; [apply Hall, Hz | auto].
    + constructor; [auto|].
      rewrite Forall_forall in *. intros z Hz.
      apply (Permutation_in _ (insert_row_perm _ _ _ _ _)) in Hz.
      destruct Hz as [<-|Hz]; auto.
Qed.

Lemma insertion_sorted (reverse_ties : bool) (by_col : string)
      (l : list (string * row)) :
  Forall (fun y => is_nan (sort_key by_col y) = false) l ->
  non_increasing by_col (fold_right (insert_row false reverse_ties by_col) [] l).
Proof.
  induction 1 as [|x t Hx Ht IH]; simpl; [constructor|].
  apply insert_row_sorted; auto.
  rewrite Forall_forall in *. intros z Hz. apply Ht.
  apply (Permutation_in _ (insertion_perm false reverse_ties by_col t)). assumption.
Qed.

Lemma insertion_sort_values_descending (reverse_ties : bool) (f : frame) (by_col : string) :
  sorted_descending f by_col (insertion_sort_values reverse_ties f by_col false).
Proof.
  split; [reflexivity|]. eexists. split; [apply insertion_perm|].
  split; [|reflexivity].
  apply insertion_sorted. apply Forall_forall. intros y Hy.
  apply filter_In in Hy. destruct Hy as [_ Hy]. now apply negb_true_iff in Hy.
Qed.

(** *** Rows of the two tables, by player *)

Lemma tables_by_player (df : list game) :
  exists ps out,
    player_stats df = Some ps /\
    output_table df = Some out /\
    (forall p w, In (p, w) (rows ps) <-> is_player df p /\ w = player_row df p) /\
    (forall p r, In (p, r) (rows out) <-> is_player df p /\ r = output_row df p) /\
    non_increasing "avg_gi" (rows out) /\
    Permutation (rows out) (rows (select columns_to_include ps)).
Proof.
  destruct (output_table_rows df)
    as (ps & out & K & Hps & Hout & Hr & Hc & Hperm & Hs & Hnd & HK).
  exists ps, out. repeat split; try assumption.
  - rewrite Hr in H. apply in_map_iff in H. destruct H as [k [E Hk]].
    inversion E; subst. now apply HK.
  - rewrite Hr in H. apply in_map_iff in H. destruct H as [k [E Hk]].
    now inversion E.
  - intros [Hp ->]. rewrite Hr. apply in_map_iff. exists p. split; [reflexivity|].
    now apply HK.
  - apply (Permutation_in _ Hperm) in H. apply in_map_iff in H.
    destruct H as [k [E Hk]]. inversion E; subst. now apply HK.
  - apply (Permutation_in _ Hperm) in H. apply in_map_iff in H.
    destruct H as [k [E Hk]]. now inversion E.
  - intros [Hp ->]. apply (Permutation_in _ (Permutation_sym Hperm)).
    apply in_map_iff. exists p. split; [reflexivity|]. now apply HK.
  - rewrite Hperm. simpl. rewrite Hr, map_map. reflexivity.
Qed.

Lemma game_count_positive (df : list game) (p : string) :
  is_player df p -> (1 <= game_count df p)%Q.
Proof.
  intros Hp. apply has_key_player, orb_true_iff in Hp.
  unfold game_count, games_as, Qlen, Qle, Qplus, inject_Z. simpl.
  destruct Hp as [H|H]; apply group_present in H; lia.
Qed.

Lemma absent_sum (side : game -> string) (value : game -> Q) (df : list game) (p : string) :
  ~ In p (map side df) -> sum_as side value df p = 0%Q.
Proof.
  intros H. apply mem_false in H. unfold sum_as.
  now rewrite (group_absent side df p H).
Qed.

Lemma absent_games (side : game -> string) (df : list game) (p : string) :
  ~ In p (map side df) -> games_as side df p = 0%Q.
Proof.
  intros H. apply mem_false in H. unfold games_as.
  now rewrite (group_absent side df p H).
Qed.

(** *** The Elo estimate *)

Lemma average_elo_as_num (side : game -> string) (elo : game -> Q)
      (df : list game) (p : string) :
  average_elo_as side elo df p = Num (avg_elo side elo df p).
Proof.
  unfold average_elo_as, avg_elo. now destruct (map elo (group side df p)).
Qed.

Lemma estimated_elo_num (w b : Q) :
  estimated_elo [("avg_elo_white", Num w); ("avg_elo_black", Num b)]
  = Num (inject_Z (round_half_even
                     (if Qltb 0 w && Qltb 0 b then (w + b) / 2
                      else if Qltb w b then b else w))).
Proof.
  unfold estimated_elo, col, py_max. simpl.
  destruct (Qltb 0 w), (Qltb 0 b); simpl; try reflexivity;
    destruct (Qltb w b); reflexivity.
Qed.

Lemma Qltb_irrefl_eq (x y : Q) : (x == y)%Q -> Qltb x y = false.
Proof.
  intros H. destruct (Qltb x y) eqn:E; [|reflexivity].
  apply Qltb_lt in E. rewrite H in E. now apply Qlt_irrefl in E.
Qed.

Lemma group_nonempty {A : Type} (key : A -> string) (df : list A) (k : string) :
  group key df k <> [] -> has_key k (map key df) = true.
Proof.
  intros H. destruct (has_key k (map key df)) eqn:E; [reflexivity|].
  now apply group_absent in E.
Qed.

Lemma avg_elo_absent (side : game -> string) (elo : game -> Q) (df : list game) (p : string) :
  ~ In p (map side df) -> avg_elo side elo df p = 0%Q.
Proof.
  intros H. apply mem_false in H. unfold avg_elo.
  now rewrite (group_absent side df p H).
Qed.

(** ** The claims *)

(** C1, union completeness: the run produces an output table, and the
    players of its rows are exactly the values found in the [White]
    column or in the [Black] column of the input. *)
Theorem union_completeness (df : list game) :
  exists out,
    output_table df = Some out /\
    forall p, In p (keys out) <-> In p (map White df) \/ In p (map Black df).
Proof.
  destruct (tables_by_player df) as (ps & out & _ & Hout & _ & Hrows & _).
  exists out. split; [assumption|]. intros p. unfold keys. rewrite in_map_iff. split.
  - intros [[q r] [<- Hin]]. apply Hrows in Hin. apply Hin.
  - intros Hp. exists (p, output_row df p). split; [reflexivity|].
    apply Hrows. now split.
Qed.

(** C2, the Elo rule as the script has it: with [w] and [b] the average
    Elo of a player as White and as Black (zero for a role never played),
    [Elo] is the rounded mean of the two when both are greater than
    zero, the rounded positive one when the other is zero, and in every
    other case the rounded larger of the two. *)
Theorem single_color_elo (df : list game) :
  exists out,
    output_table df = Some out /\
    forall p r, In (p, r) (rows out) ->
      let w := avg_elo White WhiteElo df p in
      let b := avg_elo Black BlackElo df p in
      (0 < w -> 0 < b ->
       col r "Elo" = Num (inject_Z (round_half_even ((w + b) / 2)))) /\
      (0 < w -> b == 0 -> col r "Elo" = Num (inject_Z (round_half_even w))) /\
      (w == 0 -> 0 < b -> col r "Elo" = Num (inject_Z (round_half_even b))) /\
      (~ (0 < w /\ 0 < b) ->
       col r "Elo" = Num (inject_Z (round_half_even (if Qltb w b then b else w)))) /\
      (~ In p (map White df) -> w = 0%Q) /\
      (~ In p (map Black df) -> b = 0%Q).
Proof.
  destruct (tables_by_player df) as (ps & out & _ & Hout & _ & Hrows & _).
  exists out. split; [assumption|]. intros p r Hin w b.
  apply Hrows in Hin. destruct Hin as [Hp ->].
  assert (E : col (output_row df p) "Elo"
              = Num (inject_Z (round_half_even
                                 (if Qltb 0 w && Qltb 0 b then (w + b) / 2
                                  else if Qltb w b then b else w)))).
  { rewrite col_output_row by reflexivity.
    change (col (player_row df p) "Elo")
      with (estimated_elo [("avg_elo_white", average_elo_as White WhiteElo df p);
                           ("avg_elo_black", average_elo_as Black BlackElo df p)]).
    rewrite !average_elo_as_num. apply estimated_elo_num. }
  rewrite E. repeat split.
  - intros Hw Hb. apply Qltb_lt in Hw, Hb. now rewrite Hw, Hb.
  - intros Hw Hb. apply Qltb_lt in Hw as Hw'.
    assert (H0b : Qltb 0 b = false) by (apply Qltb_irrefl_eq; now symmetry).
    assert (Hwb : Qltb w b = false).
    { destruct (Qltb w b) eqn:F; [|reflexivity]. apply Qltb_lt in F.
      rewrite Hb in F. exfalso. apply (Qlt_irrefl 0). now apply Qlt_trans with w. }
    now rewrite Hw', H0b, Hwb.
  - intros Hw Hb.
    assert (H0w : Qltb 0 w = false) by (apply Qltb_irrefl_eq; now symmetry).
    assert (Hwb : Qltb w b = true) by (apply Qltb_lt; now rewrite Hw).
    now rewrite H0w, Hwb.
  - intros Hn. destruct (Qltb 0 w) eqn:Fw, (Qltb 0 b) eqn:Fb; try reflexivity.
    exfalso. apply Hn. split; now apply Qltb_lt.
  - apply avg_elo_absent.
  - apply avg_elo_absent.
Qed.


(** The statistics of a player with a single observation, as
    [calculate_statistics] returns them. *)
Lemma statistics_single (df : list observation) (value_col : observation -> Q)
      (name p : string) (o : observation) :
  String.eqb (name ++ "_var") (name ++ "_median") = false ->
  String.eqb (name ++ "_std") (name ++ "_median") = false ->
  String.eqb (name ++ "_std") (name ++ "_var") = false ->
  group Player df p = [o] ->
  (exists s, In (p, s) (rows (calculate_statistics df value_col name))) /\
  forall s, In (p, s) (rows (calculate_statistics df value_col name)) ->
            col s (name ++ "_median") = Num (value_col o) /\
            col s (name ++ "_var") = NaN /\
            col s (name ++ "_std") = NaN.
Proof.
  intros H1 H2 H3 Hg.
  destruct (tab_calculate_statistics df value_col name H1 H2 H3) as [_ Hr].
  assert (Hrow : forall s, In (p, s) (rows (calculate_statistics df value_col name)) ->
                           s = [((name ++ "_median")%string, Num (value_col o));
                                ((name ++ "_var")%string, NaN);
                                ((name ++ "_std")%string, NaN)]).
  { intros s Hs. rewrite Hr in Hs. apply in_map_iff in Hs.
    destruct Hs as [k [E _]]. inversion E; subst. simpl.
    rewrite !String.eqb_refl, H1, H2, H3, Hg. reflexivity. }
  split.
  - eexists. rewrite Hr. apply in_map_iff. exists p. split; [reflexivity|].
    apply In_sorted_unique, mem_In. apply group_nonempty. now rewrite Hg.
  - intros s Hs. rewrite (Hrow s Hs). unfold col. simpl.
    rewrite !String.eqb_refl, (String.eqb_sym (name ++ "_median")), H1.
    rewrite (String.eqb_sym (name ++ "_median")), H2.
    rewrite (String.eqb_sym (name ++ "_var")), H3. auto.
Qed.

(** C4, dispersion of a single observation as the script carries it: for
    a player with exactly one pooled observation, [calculate_statistics]
    returns (it does not raise) a row whose variance and standard
    deviation are [NaN] for each of gi, gi_raw, gpl and acpl; the run
    still produces an output table with a row for the player, and that
    row carries the number zero in each of these eight columns, the
    [fillna(0)] of [merge_dataframes] having replaced the [NaN]. *)
Theorem single_observation_dispersion (df : list game) (p : string) :
  List.length (observations df p) = 1%nat ->
  ((exists s, In (p, s) (rows (calculate_statistics (combined_df df) gi "gi"))) /\
   forall s, In (p, s) (rows (calculate_statistics (combined_df df) gi "gi")) ->
             col s "gi_var" = NaN /\ col s "gi_std" = NaN) /\
  ((exists s, In (p, s) (rows (calculate_statistics (combined_df df) gi_raw "gi_raw"))) /\
   forall s, In (p, s) (rows (calculate_statistics (combined_df df) gi_raw "gi_raw")) ->
             col s "gi_raw_var" = NaN /\ col s "gi_raw_std" = NaN) /\
  ((exists s, In (p, s) (rows (calculate_statistics (combined_df df) gpl "gpl"))) /\
   forall s, In (p, s) (rows (calculate_statistics (combined_df df) gpl "gpl")) ->
             col s "gpl_var" = NaN /\ col s "gpl_std" = NaN) /\
  ((exists s, In (p, s) (rows (calculate_statistics (combined_df df) acpl "acpl"))) /\
   forall s, In (p, s) (rows (calculate_statistics (combined_df df) acpl "acpl")) ->
             col s "acpl_var" = NaN /\ col s "acpl_std" = NaN) /\
  exists out,
    output_table df = Some out /\
    (exists r, In (p, r) (rows out)) /\
    forall r, In (p, r) (rows out) ->
      col r "gi_var" = Num 0 /\ col r "gi_std" = Num 0 /\
      col r "gi_raw_var" = Num 0 /\ col r "gi_raw_std" = Num 0 /\
      col r "gpl_var" = Num 0 /\ col r "gpl_std" = Num 0 /\
      col r "acpl_var" = Num 0 /\ col r "acpl_std" = Num 0.
Proof.
  intros Hone. unfold observations in Hone.
  destruct (group Player (combined_df df) p) as [|o [|o' t]] eqn:Hg; try discriminate.
  assert (Hstat : forall value_col name,
             String.eqb (name ++ "_var") (name ++ "_median") = false ->
             String.eqb (name ++ "_std") (name ++ "_median") = false ->
             String.eqb (name ++ "_std") (name ++ "_var") = false ->
             (exists s, In (p, s) (rows (calculate_statistics (combined_df df) value_col name))) /\
             forall s, In (p, s) (rows (calculate_statistics (combined_df df) value_col name)) ->
                       col s (name ++ "_var") = NaN /\ col s (name ++ "_std") = NaN).
  { intros value_col name H1 H2 H3.
    destruct (statistics_single (combined_df df) value_col name p o H1 H2 H3 Hg) as [He Hs].
    split; [assumption|]. intros s Hin. now destruct (Hs s Hin) as (_ & ? & ?). }
  split; [apply (Hstat gi "gi"); reflexivity|].
  split; [apply (Hstat gi_raw "gi_raw"); reflexivity|].
  split; [apply (Hstat gpl "gpl"); reflexivity|].
  split; [apply (Hstat acpl "acpl"); reflexivity|].
  destruct (tables_by_player df) as (ps & out & _ & Hout & _ & Hrows & _).
  assert (Hp : is_player df p).
  { apply has_key_player. rewrite <- has_key_combined. apply group_nonempty.
    now rewrite Hg. }
  exists out. split; [assumption|]. split.
  - exists (output_row df p). apply Hrows. now split.
  - intros r Hin. apply Hrows in Hin. destruct Hin as [_ ->].
    rewrite !col_output_row by reflexivity.
    cbv [col lookup player_row String.eqb Ascii.eqb Bool.eqb].
    unfold pooled, std. rewrite Hg. simpl. auto 10.
Qed.

(** C5, average identity: every player of the output has a row in
    [player_stats] whose [total_game_count] is a number greater than
    zero, and [avg_gi], [avg_gi_raw], [avg_gpl] and [avg_acpl] are the
    totals of that row divided by that count. *)
Theorem average_identity (df : list game) :
  exists ps out,
    player_stats df = Some ps /\
    output_table df = Some out /\
    forall p r, In (p, r) (rows out) ->
      exists w count sum_gi sum_gi_raw sum_gpl sum_acpl,
        In (p, w) (rows ps) /\
        col w "total_game_count" = Num count /\
        col r "total_game_count" = Num count /\
        0 < count /\
        col w "total_gi_sum" = Num sum_gi /\
        col r "avg_gi" = Num (sum_gi / count) /\
        col w "total_gi_raw_sum" = Num sum_gi_raw /\
        col r "avg_gi_raw" = Num (sum_gi_raw / count) /\
        col w "total_gpl_sum" = Num sum_gpl /\
        col r "avg_gpl" = Num (sum_gpl / count) /\
        col w "total_acpl_sum" = Num sum_acpl /\
        col r "avg_acpl" = Num (sum_acpl / count).
Proof.
  destruct (tables_by_player df) as (ps & out & Hps & Hout & Hw & Hrows & _).
  exists ps, out. split; [assumption|]. split; [assumption|].
  intros p r Hin. apply Hrows in Hin. destruct Hin as [Hp ->].
  exists (player_row df p), (game_count df p).
  exists (total_of white_gi black_gi df p), (total_of white_gi_raw black_gi_raw df p),
    (total_of white_gpl black_gpl df p), (total_of white_acpl black_acpl df p).
  split; [apply Hw; now split|].
  rewrite !col_output_row by reflexivity.
  repeat split; try reflexivity.
  apply Qlt_le_trans with 1; [reflexivity | now apply game_count_positive].
Qed.

(** C6, sum identity: every player of the output has a row in
    [player_stats]; in each row of [player_stats] the white-side and
    black-side sums of gi, gi_raw, gpl and acpl are the sums over the
    games the player has in that role, the total is their sum, and the
    sum over a role the player never had is zero. *)
Theorem sum_identity (df : list game) :
  exists ps out,
    player_stats df = Some ps /\
    output_table df = Some out /\
    (forall p, In p (keys out) -> exists w, In (p, w) (rows ps)) /\
    forall p w, In (p, w) (rows ps) ->
      (col w "white_gi_sum" = Num (sum_as White white_gi df p) /\
       col w "black_gi_sum" = Num (sum_as Black black_gi df p) /\
       col w "total_gi_sum"
       = Num (sum_as White white_gi df p + sum_as Black black_gi df p)) /\
      (col w "white_gi_raw_sum" = Num (sum_as White white_gi_raw df p) /\
       col w "black_gi_raw_sum" = Num (sum_as Black black_gi_raw df p) /\
       col w "total_gi_raw_sum"
       = Num (sum_as White white_gi_raw df p + sum_as Black black_gi_raw df p)) /\
      (col w "white_gpl_sum" = Num (sum_as White white_gpl df p) /\
       col w "black_gpl_sum" = Num (sum_as Black black_gpl df p) /\
       col w "total_gpl_sum"
       = Num (sum_as White white_gpl df p + sum_as Black black_gpl df p)) /\
      (col w "white_acpl_sum" = Num (sum_as White white_acpl df p) /\
       col w "black_acpl_sum" = Num (sum_as Black black_acpl df p) /\
       col w "total_acpl_sum"
       = Num (sum_as White white_acpl df p + sum_as Black black_acpl df p)) /\
      (forall value, ~ In p (map White df) -> sum_as White value df p = 0%Q) /\
      (forall value, ~ In p (map Black df) -> sum_as Black value df p = 0%Q).
Proof.
  destruct (tables_by_player df) as (ps & out & Hps & Hout & Hw & Hrows & _).
  exists ps, out. split; [assumption|]. split; [assumption|]. split.
  - intros p Hp. unfold keys in Hp. apply in_map_iff in Hp.
    destruct Hp as [[q r] [<- Hin]]. apply Hrows in Hin.
    exists (player_row df q). apply Hw. split; [apply Hin | reflexivity].
  - intros p w Hin. apply Hw in Hin. destruct Hin as [_ ->].
    repeat split; try reflexivity; intros; now apply absent_sum.
Qed.

(** C7, game count identity: in every row of the output [White_games]
    and [Black_games] are the numbers of input rows with the player in
    the White and in the Black column, zero for a role never played,
    and [total_game_count] is their sum. *)
Theorem game_count_identity (df : list game) :
  exists out,
    output_table df = Some out /\
    forall p r, In (p, r) (rows out) ->
      col r "White_games" = Num (games_as White df p) /\
      col r "Black_games" = Num (games_as Black df p) /\
      col r "total_game_count" = Num (games_as White df p + games_as Black df p) /\
      (~ In p (map White df) -> games_as White df p = 0%Q) /\
      (~ In p (map Black df) -> games_as Black df p = 0%Q).
Proof.
  destruct (tables_by_player df) as (ps & out & _ & Hout & _ & Hrows & _).
  exists out. split; [assumption|].
  intros p r Hin. apply Hrows in Hin. destruct Hin as [_ ->].
  rewrite !col_output_row by reflexivity.
  repeat split; try reflexivity; now apply absent_games.
Qed.

(** C8, average opponent rating: [player_stats] has a row for every
    player, and in each row [avg_opponent_elo] is the sum of [BlackElo]
    over the games the player has as White plus the sum of [WhiteElo]
    over the games the player has as Black, divided by the player's
    number of games. *)
Theorem average_opponent_rating (df : list game) :
  exists ps,
    player_stats df = Some ps /\
    (forall p, In p (keys ps) <-> In p (map White df) \/ In p (map Black df)) /\
    forall p w, In (p, w) (rows ps) ->
      col w "total_game_count" = Num (games_as White df p + games_as Black df p) /\
      col w "avg_opponent_elo"
      = Num ((sum_as White BlackElo df p + sum_as Black WhiteElo df p)
             / (games_as White df p + games_as Black df p)).
Proof.
  destruct (player_stats_rows df) as (ps & K & Hps & _ & Hr & _ & HK).
  exists ps. split; [assumption|]. split.
  - intros p. unfold keys. rewrite Hr, map_map. simpl. rewrite map_id. apply HK.
  - intros p w Hin. rewrite Hr in Hin. apply in_map_iff in Hin.
    destruct Hin as [k [E _]]. inversion E; subst. split; reflexivity.
Qed.

(** C9, missing input file: when the input path does not exist the run
    returns without raising, the files are what they were, so that no
    output file is produced, and the console has one more line, which
    reports the path. *)
Theorem missing_input_file (w : world) (csv_all_games_path player_stats_output_dir : string) :
  path_exists csv_all_games_path (files w) = false ->
  main_stats w csv_all_games_path player_stats_output_dir
  = ({| files := files w;
        stdout := stdout w ++ [("File not found: " ++ csv_all_games_path)%string] |},
     Returned).
Proof.
  intros H. unfold main_stats. now rewrite H.
Qed.

(** C10, no empty player: in every row of the output [total_game_count]
    is the number of input rows with the player in either role, and it
    is at least one, hence not zero. *)
Theorem positive_game_count (df : list game) :
  exists out,
    output_table df = Some out /\
    forall p r, In (p, r) (rows out) ->
      col r "total_game_count" = Num (games_as White df p + games_as Black df p) /\
      1 <= games_as White df p + games_as Black df p /\
      ~ games_as White df p + games_as Black df p == 0.
Proof.
  destruct (tables_by_player df) as (ps & out & _ & Hout & _ & Hrows & _).
  exists out. split; [assumption|].
  intros p r Hin. apply Hrows in Hin. destruct Hin as [Hp ->].
  rewrite col_output_row by reflexivity.
  pose proof (game_count_positive df p Hp) as H1. unfold game_count in H1.
  split; [reflexivity|]. split; [assumption|].
  intros H0. rewrite H0 in H1. now apply H1.
Qed.

(** ** Further properties of the script *)

(** *** Shape of the output *)

Lemma output_table_shape (df : list game) :
  exists out K,
    output_table df = Some out /\
    columns out = columns_to_include /\
    Permutation (rows out) (map (fun k => (k, output_row df k)) K) /\
    NoDup K /\
    (forall p, In p K <-> is_player df p).
Proof.
  destruct (output_table_rows df)
    as (ps & out & K & _ & Hout & _ & Hc & Hperm & _ & Hnd & HK).
  exists out, K. auto.
Qed.

(** The selection of the output columns and the sort never meet a
    missing column: every name of [columns_to_include], the sort column
    [avg_gi] among them, is a column of [player_stats], and a cell of an
    output row is the cell the row of that player holds there. *)
Theorem output_schema (df : list game) :
  exists ps out,
    player_stats df = Some ps /\
    output_table df = Some out /\
    In "avg_gi" columns_to_include /\
    (forall c, In c columns_to_include -> In c (columns ps)) /\
    columns out = columns_to_include /\
    forall p r, In (p, r) (rows out) ->
      map fst r = columns_to_include /\
      exists w, In (p, w) (rows ps) /\
                forall c, In c columns_to_include -> lookup c w = Some (col r c).
Proof.
  destruct (tables_by_player df) as (ps & out & Hps & Hout & Hw & Hrows & _).
  destruct (player_stats_rows df) as (ps' & K & Hps' & Hcols & _).
  rewrite Hps in Hps'. injection Hps' as <-.
  destruct (output_table_shape df) as (out' & _ & Hout' & Hc & _).
  rewrite Hout in Hout'. injection Hout' as <-.
  exists ps, out. split; [assumption|]. split; [assumption|].
  split; [left; reflexivity|].
  split.
  - intros c Hin. rewrite Hcols. apply mem_In. simpl in Hin.
    repeat (destruct Hin as [<-|Hin]; [reflexivity|]). destruct Hin.
  - split; [assumption|].
    intros p r Hin. apply Hrows in Hin. destruct Hin as [Hp ->]. split.
    + unfold output_row. rewrite map_map. reflexivity.
    + exists (player_row df p). split; [apply Hw; auto|].
      intros c Hin. rewrite col_output_row by (apply mem_In; exact Hin).
      simpl in Hin.
      repeat (destruct Hin as [<-|Hin]; [reflexivity|]). destruct Hin.
Qed.

(** The output has exactly one row for each distinct player: no name
    occurs twice, and there are as many rows as distinct names in the
    two player columns of the input. *)
Theorem one_row_per_player (df : list game) :
  exists out,
    output_table df = Some out /\
    NoDup (keys out) /\
    List.length (rows out)
    = List.length (sorted_unique (map White df ++ map Black df)).
Proof.
  destruct (output_table_shape df) as (out & K & Hout & _ & Hperm & Hnd & HK).
  exists out. split; [assumption|].
  assert (Hkeys : Permutation (keys out) K).
  { unfold keys. rewrite Hperm, map_map. simpl. now rewrite map_id. }
  split.
  - eapply Permutation_NoDup; [symmetry; exact Hkeys | assumption].
  - rewrite <- (length_map fst). fold (keys out). rewrite (Permutation_length Hkeys).
    apply Permutation_length, NoDup_Permutation;
      [assumption | apply NoDup_sorted_unique |].
    intros p. rewrite HK, In_sorted_unique, in_app_iff. reflexivity.
Qed.

(** *** Points, moves and the performance rating *)

(** [Points] is the sum of the player's results as White and as Black,
    and the two partial sums are written beside it. *)
Theorem points_identity (df : list game) :
  exists out,
    output_table df = Some out /\
    forall p r, In (p, r) (rows out) ->
      col r "white_result_sum" = Num (sum_as White WhiteResult df p) /\
      col r "black_result_sum" = Num (sum_as Black BlackResult df p) /\
      col r "Points"
      = Num (sum_as White WhiteResult df p + sum_as Black BlackResult df p).
Proof.
  destruct (tables_by_player df) as (ps & out & _ & Hout & _ & Hrows & _).
  exists out. split; [assumption|].
  intros p r Hin. apply Hrows in Hin. destruct Hin as [_ ->].
  rewrite !col_output_row by reflexivity. repeat split.
Qed.

(** [total_moves] is the number of moves the player made as White plus
    the number made as Black, a role never played counting for zero. *)
Theorem total_moves_identity (df : list game) :
  exists out,
    output_table df = Some out /\
    forall p r, In (p, r) (rows out) ->
      col r "total_moves"
      = Num (sum_as White white_move_number df p + sum_as Black black_move_number df p) /\
      (~ In p (map White df) -> sum_as White white_move_number df p = 0%Q) /\
      (~ In p (map Black df) -> sum_as Black black_move_number df p = 0%Q).
Proof.
  destruct (tables_by_player df) as (ps & out & _ & Hout & _ & Hrows & _).
  exists out. split; [assumption|].
  intros p r Hin. apply Hrows in Hin. destruct Hin as [_ ->].
  rewrite !col_output_row by reflexivity.
  repeat split; now apply absent_sum.
Qed.

(** [TPR] is the rounded value [calculate_EPR] returns for the
    differential that [optimize_w] returns for the player's points,
    number of games and the threshold 0.75, and for the player's average
    opponent rating; it is a whole number whenever [calculate_EPR]
    returns a number. *)
Theorem tpr_composition (df : list game) :
  exists out,
    output_table df = Some out /\
    forall p r, In (p, r) (rows out) ->
      let w_star :=
        optimize_w (col r "Points") (col r "total_game_count") (3 # 4) in
      let opponents :=
        ((sum_as White BlackElo df p + sum_as Black WhiteElo df p)
         / (games_as White df p + games_as Black df p))%Q in
      col r "TPR" = py_round (calculate_EPR w_star (Num opponents)) /\
      forall q, calculate_EPR w_star (Num opponents) = Num q ->
                col r "TPR" = Num (inject_Z (round_half_even q)).
Proof.
  destruct (tables_by_player df) as (ps & out & _ & Hout & _ & Hrows & _).
  exists out. split; [assumption|].
  intros p r Hin. apply Hrows in Hin. destruct Hin as [_ ->].
  rewrite !col_output_row by reflexivity.
  split; [reflexivity|]. intros q Hq.
  change (col (player_row df p) "TPR")
    with (py_round (calculate_EPR
                      (optimize_w (col (player_row df p) "Points")
                                  (col (player_row df p) "total_game_count") (3 # 4))
                      (Num ((sum_as White BlackElo df p + sum_as Black WhiteElo df p)
                            / (games_as White df p + games_as Black df p))))).
  now rewrite Hq.
Qed.

(** *** Sums of rationals *)

Lemma fold_Qplus_acc (l : list Q) (a : Q) :
  fold_left Qplus l a == a + fold_left Qplus l 0.
Proof.
  revert a. induction l as [|x t IH]; intros a; simpl; [ring|].
  rewrite (IH (a + x)), (IH (0 + x)). ring.
Qed.

Lemma Qsum_cons (x : Q) (l : list Q) : Qsum (x :: l) == x + Qsum l.
Proof. unfold Qsum. simpl. rewrite fold_Qplus_acc. ring. Qed.

Lemma Qsum_perm (l l' : list Q) : Permutation l l' -> Qsum l == Qsum l'.
Proof.
  induction 1 as [|x l l' _ IH|x y l|l l' l'' _ IH1 _ IH2].
  - reflexivity.
  - rewrite !Qsum_cons, IH. reflexivity.
  - rewrite !Qsum_cons. ring.
  - now rewrite IH1.
Qed.

Lemma Qsum_map_ext {A : Type} (f g : A -> Q) (l : list A) :
  (forall x, In x l -> f x == g x) -> Qsum (map f l) == Qsum (map g l).
Proof.
  induction l as [|x t IH]; intros H; simpl; [reflexivity|].
  rewrite !Qsum_cons.
  rewrite IH by (intros; apply H; simpl; auto).
  rewrite (H x) by (simpl; auto). reflexivity.
Qed.

Lemma Qsum_map_plus {A : Type} (f g : A -> Q) (l : list A) :
  Qsum (map (fun x => f x + g x) l) == Qsum (map f l) + Qsum (map g l).
Proof.
  induction l as [|x t IH]; simpl; [reflexivity|].
  rewrite !Qsum_cons, IH. ring.
Qed.

Lemma Qsum_nonneg (l : list Q) : (forall x, In x l -> 0 <= x) -> 0 <= Qsum l.
Proof.
  induction l as [|x t IH]; intros H; [apply Qle_refl|].
  rewrite Qsum_cons.
  assert (0 <= x) by (apply H; simpl; auto).
  assert (0 <= Qsum t) by (apply IH; intros; apply H; simpl; auto).
  lra.
Qed.

Lemma Qlen_cons {A : Type} (x : A) (l : list A) : Qlen (x :: l) == 1 + Qlen l.
Proof.
  unfold Qlen. cbn [List.length]. rewrite Nat2Z.inj_succ. unfold Z.succ.
  rewrite inject_Z_plus. change (inject_Z 1) with 1. ring.
Qed.

Lemma Qlen_nonneg {A : Type} (l : list A) : 0 <= Qlen l.
Proof.
  unfold Qlen. change 0 with (inject_Z 0). rewrite <- Zle_Qle. lia.
Qed.

Lemma Qlen_ones {A : Type} (l : list A) : Qlen l == Qsum (map (fun _ => 1) l).
Proof.
  induction l as [|x t IH]; [reflexivity|].
  simpl map. rewrite Qlen_cons, Qsum_cons, IH. reflexivity.
Qed.

Lemma Qsum_zeros {A : Type} (l : list A) : Qsum (map (fun _ => 0) l) == 0.
Proof.
  induction l as [|x t IH]; [reflexivity|].
  simpl map. rewrite Qsum_cons, IH. ring.
Qed.

(** Each row of the games table falls in the group of exactly one key. *)
Lemma Qsum_indicator (x : string) (a : Q) (K : list string) :
  NoDup K -> In x K ->
  Qsum (map (fun k => if String.eqb x k then a else 0) K) == a.
Proof.
  induction 1 as [|y t Hy Hnd IH]; intros Hin; [destruct Hin|].
  simpl map. rewrite Qsum_cons.
  destruct (String.eqb_spec x y) as [->|Hne].
  - rewrite (Qsum_map_ext _ (fun _ => 0)).
    + rewrite Qsum_zeros. ring.
    + intros k Hk. destruct (String.eqb_spec y k); [subst; contradiction | reflexivity].
  - destruct Hin as [->|Hin]; [contradiction|]. rewrite IH by assumption. ring.
Qed.

Lemma Qsum_groups (side : game -> string) (value : game -> Q)
      (df : list game) (K : list string) :
  NoDup K ->
  (forall g, In g df -> In (side g) K) ->
  Qsum (map (fun k => sum_as side value df k) K) == Qsum (map value df).
Proof.
  intros Hnd. induction df as [|g t IH]; intros Hcover.
  - unfold sum_as, group. simpl. apply Qsum_zeros.
  - rewrite (Qsum_map_ext _ (fun k => (if String.eqb (side g) k then value g else 0)
                                    + sum_as side value t k)).
    + rewrite Qsum_map_plus, Qsum_indicator, IH; auto with datatypes.
      simpl map. now rewrite Qsum_cons.
    + intros k _. unfold sum_as, group. simpl.
      destruct (String.eqb (side g) k); simpl; [apply Qsum_cons | ring].
Qed.

Lemma Qsum_games (side : game -> string) (df : list game) (K : list string) :
  NoDup K ->
  (forall g, In g df -> In (side g) K) ->
  Qsum (map (fun k => games_as side df k) K) == Qlen df.
Proof.
  intros Hnd Hcover.
  rewrite (Qsum_map_ext _ (fun k => sum_as side (fun _ => 1) df k)).
  - rewrite Qsum_groups by assumption. symmetry. apply Qlen_ones.
  - intros k _. unfold games_as, sum_as. apply Qlen_ones.
Qed.

(** *** Totals over all players *)

Lemma output_cells (df : list game) (c : string) (v : string -> Q) :
  (forall p, col (output_row df p) c = Num (v p)) ->
  exists out K,
    output_table df = Some out /\
    NoDup K /\
    (forall p, In p K <-> is_player df p) /\
    map (fun kr => col (snd kr) c) (rows out) = map Num (map (fun kr => v (fst kr)) (rows out)) /\
    Qsum (map (fun kr => v (fst kr)) (rows out)) == Qsum (map v K).
Proof.
  intros Hv.
  destruct (output_table_shape df) as (out & K & Hout & _ & Hperm & Hnd & HK).
  exists out, K. repeat split; try assumption; try (now apply HK).
  - rewrite map_map. apply map_ext_in. intros [p r] Hin.
    apply (Permutation_in _ Hperm) in Hin. apply in_map_iff in Hin.
    destruct Hin as [k [E _]]. inversion E; subst. simpl. apply Hv.
  - apply Qsum_perm.
    rewrite (Permutation_map (fun kr => v (fst kr)) Hperm), map_map. reflexivity.
Qed.

(** Every game is counted twice, once for each side: the game counts of
    the output rows add up to twice the number of input rows. *)
Theorem games_counted_twice (df : list game) :
  exists out counts,
    output_table df = Some out /\
    map (fun kr => col (snd kr) "total_game_count") (rows out) = map Num counts /\
    Qsum counts == inject_Z (Z.of_nat (2 * List.length df)).
Proof.
  destruct (output_cells df "total_game_count" (game_count df))
    as (out & K & Hout & Hnd & HK & Hcells & Hsum).
  { intros p. now rewrite col_output_row by reflexivity. }
  exists out. eexists. split; [assumption|]. split; [exact Hcells|].
  rewrite Hsum. unfold game_count. rewrite Qsum_map_plus.
  rewrite !Qsum_games; try assumption.
  - unfold Qlen. rewrite <- inject_Z_plus. apply inject_Z_injective. lia.
  - intros g Hg. apply HK. right. now apply in_map.
  - intros g Hg. apply HK. left. now apply in_map.
Qed.

(** No result is lost or invented: the [Points] of the output rows add
    up to the results of the input, White and Black together; when every
    game awards one point in all, they add up to the number of games. *)
Theorem points_conserved (df : list game) :
  exists out points,
    output_table df = Some out /\
    map (fun kr => col (snd kr) "Points") (rows out) = map Num points /\
    Qsum points == Qsum (map WhiteResult df) + Qsum (map BlackResult df) /\
    ((forall g, In g df -> WhiteResult g + BlackResult g == 1) ->
     Qsum points == inject_Z (Z.of_nat (List.length df))).
Proof.
  destruct (output_cells df "Points" (total_of WhiteResult BlackResult df))
    as (out & K & Hout & Hnd & HK & Hcells & Hsum).
  { intros p. now rewrite col_output_row by reflexivity. }
  exists out. eexists. split; [assumption|]. split; [exact Hcells|].
  assert (E : Qsum (map (fun kr => total_of WhiteResult BlackResult df (fst kr)) (rows out))
              == Qsum (map WhiteResult df) + Qsum (map BlackResult df)).
  { rewrite Hsum. unfold total_of. rewrite Qsum_map_plus.
    rewrite !Qsum_groups; try assumption; try reflexivity.
    - intros g Hg. apply HK. right. now apply in_map.
    - intros g Hg. apply HK. left. now apply in_map. }
  split; [exact E|]. intros Hone. rewrite E, <- Qsum_map_plus.
  rewrite (Qsum_map_ext _ (fun _ => 1)) by assumption.
  symmetry. apply (Qlen_ones df).
Qed.

(** The moves of the output rows add up to the moves of the input. *)
Theorem moves_conserved (df : list game) :
  exists out moves,
    output_table df = Some out /\
    map (fun kr => col (snd kr) "total_moves") (rows out) = map Num moves /\
    Qsum moves
    == Qsum (map white_move_number df) + Qsum (map black_move_number df).
Proof.
  destruct (output_cells df "total_moves" (total_of white_move_number black_move_number df))
    as (out & K & Hout & Hnd & HK & Hcells & Hsum).
  { intros p. now rewrite col_output_row by reflexivity. }
  exists out. eexists. split; [assumption|]. split; [exact Hcells|].
  rewrite Hsum. unfold total_of. rewrite Qsum_map_plus.
  rewrite !Qsum_groups; try assumption; try reflexivity.
  - intros g Hg. apply HK. right. now apply in_map.
  - intros g Hg. apply HK. left. now apply in_map.
Qed.

(** *** Statistics over the pooled observations *)

Lemma filter_map_comm {A B : Type} (f : A -> B) (p : B -> bool) (l : list A) :
  filter p (map f l) = map f (filter (fun a => p (f a)) l).
Proof.
  induction l as [|x t IH]; simpl; [reflexivity|].
  destruct (p (f x)); simpl; now rewrite IH.
Qed.

(** The observations of a player are the White-side values of the games
    played as White followed by the Black-side values of the games played
    as Black. *)
Lemma pooled_split (value : observation -> Q) (white_value black_value : game -> Q)
      (df : list game) (p : string) :
  (forall g, value {| Player := White g; gi := white_gi g; gi_raw := white_gi_raw g;
                      gpl := white_gpl g; acpl := white_acpl g |} = white_value g) ->
  (forall g, value {| Player := Black g; gi := black_gi g; gi_raw := black_gi_raw g;
                      gpl := black_gpl g; acpl := black_acpl g |} = black_value g) ->
  pooled value df p
  = map white_value (group White df p) ++ map black_value (group Black df p).
Proof.
  intros Hw Hb. unfold pooled, group, combined_df.
  rewrite filter_app, !filter_map_comm, map_app, !map_map. simpl.
  f_equal; apply map_ext; auto.
Qed.

Lemma median_number (l : list Q) : l <> [] -> exists m, median l = Num m.
Proof.
  destruct l as [|x t]; [congruence|]. intros _. unfold median.
  cbn [List.length]. destruct (Nat.even (S (List.length t))); eexists; reflexivity.
Qed.

Lemma pooled_nonempty (value : observation -> Q) (df : list game) (p : string) :
  is_player df p -> pooled value df p <> [].
Proof.
  intros Hp. apply has_key_player in Hp. rewrite <- has_key_combined in Hp.
  apply group_present in Hp. unfold pooled.
  destruct (group Player (combined_df df) p); simpl in *; [lia | discriminate].
Qed.

(** The median, variance and standard deviation of each metric are
    taken over one pooled sample per player, the White-side values
    followed by the Black-side values; a missing variance or standard
    deviation is written as zero. *)
Theorem statistics_are_pooled (df : list game) :
  exists out,
    output_table df = Some out /\
    forall p r, In (p, r) (rows out) ->
      let sample (white_value black_value : game -> Q) :=
        map white_value (group White df p) ++ map black_value (group Black df p) in
      (col r "gi_median" = median (sample white_gi black_gi) /\
       col r "gi_var" = fill 0 (var (sample white_gi black_gi)) /\
       col r "gi_std" = fill 0 (std (sample white_gi black_gi))) /\
      (col r "gi_raw_median" = median (sample white_gi_raw black_gi_raw) /\
       col r "gi_raw_var" = fill 0 (var (sample white_gi_raw black_gi_raw)) /\
       col r "gi_raw_std" = fill 0 (std (sample white_gi_raw black_gi_raw))) /\
      (col r "gpl_median" = median (sample white_gpl black_gpl) /\
       col r "gpl_var" = fill 0 (var (sample white_gpl black_gpl)) /\
       col r "gpl_std" = fill 0 (std (sample white_gpl black_gpl))) /\
      (col r "acpl_median" = median (sample white_acpl black_acpl) /\
       col r "acpl_var" = fill 0 (var (sample white_acpl black_acpl)) /\
       col r "acpl_std" = fill 0 (std (sample white_acpl black_acpl))).
Proof.
  destruct (tables_by_player df) as (ps & out & _ & Hout & _ & Hrows & _).
  exists out. split; [assumption|].
  intros p r Hin sample. apply Hrows in Hin. destruct Hin as [Hp ->].
  assert (Hstat : forall value white_value black_value,
             pooled value df p = sample white_value black_value ->
             fill 0 (median (pooled value df p)) = median (sample white_value black_value) /\
             fill 0 (var (pooled value df p)) = fill 0 (var (sample white_value black_value)) /\
             fill 0 (std (pooled value df p)) = fill 0 (std (sample white_value black_value))).
  { intros value wv bv E.
    destruct (median_number (pooled value df p) (pooled_nonempty value df p Hp)) as [m Hm].
    rewrite Hm. simpl. rewrite <- Hm, E. auto. }
  pose proof (Hstat gi white_gi black_gi
                (pooled_split _ _ _ df p (fun _ => eq_refl) (fun _ => eq_refl)))
    as (G1 & G2 & G3).
  pose proof (Hstat gi_raw white_gi_raw black_gi_raw
                (pooled_split _ _ _ df p (fun _ => eq_refl) (fun _ => eq_refl)))
    as (R1 & R2 & R3).
  pose proof (Hstat gpl white_gpl black_gpl
                (pooled_split _ _ _ df p (fun _ => eq_refl) (fun _ => eq_refl)))
    as (P1 & P2 & P3).
  pose proof (Hstat acpl white_acpl black_acpl
                (pooled_split _ _ _ df p (fun _ => eq_refl) (fun _ => eq_refl)))
    as (A1 & A2 & A3).
  rewrite !col_output_row by reflexivity.
  repeat split;
    first [ exact G1 | exact G2 | exact G3 | exact R1 | exact R2 | exact R3
          | exact P1 | exact P2 | exact P3 | exact A1 | exact A2 | exact A3 ].
Qed.

Lemma Qsquare_nonneg (q : Q) : 0 <= q * q.
Proof.
  destruct (Qlt_le_dec q 0) as [H|H].
  - setoid_replace (q * q) with ((- q) * (- q)) by ring.
    apply Qmult_le_0_compat; lra.
  - now apply Qmult_le_0_compat.
Qed.

Lemma var_not_negative (l : list Q) : exists v, fill 0 (var l) = Num v /\ 0 <= v.
Proof.
  destruct l as [|x [|y t]]; [exists 0; split; [reflexivity | apply Qle_refl]..|].
  eexists. split; [reflexivity|].
  apply Qle_shift_div_l.
  - rewrite !Qlen_cons. pose proof (Qlen_nonneg t). lra.
  - rewrite Qmult_0_l. apply Qsum_nonneg. intros z Hz.
    apply in_map_iff in Hz. destruct Hz as [a [<- _]]. apply Qsquare_nonneg.
Qed.

(** The variance columns of the output hold numbers that are not
    negative: the sample variance of the pooled observations, or zero
    for a player with a single observation. *)
Theorem variance_not_negative (df : list game) :
  exists out,
    output_table df = Some out /\
    forall p r, In (p, r) (rows out) ->
      exists v_gi v_gi_raw v_gpl v_acpl,
        (col r "gi_var" = Num v_gi /\ 0 <= v_gi) /\
        (col r "gi_raw_var" = Num v_gi_raw /\ 0 <= v_gi_raw) /\
        (col r "gpl_var" = Num v_gpl /\ 0 <= v_gpl) /\
        (col r "acpl_var" = Num v_acpl /\ 0 <= v_acpl).
Proof.
  destruct (tables_by_player df) as (ps & out & _ & Hout & _ & Hrows & _).
  exists out. split; [assumption|].
  intros p r Hin. apply Hrows in Hin. destruct Hin as [_ ->].
  destruct (var_not_negative (pooled gi df p)) as (v1 & E1 & H1).
  destruct (var_not_negative (pooled gi_raw df p)) as (v2 & E2 & H2).
  destruct (var_not_negative (pooled gpl df p)) as (v3 & E3 & H3).
  destruct (var_not_negative (pooled acpl df p)) as (v4 & E4 & H4).
  exists v1, v2, v3, v4.
  rewrite !col_output_row by reflexivity.
  repeat split; first [exact E1 | exact E2 | exact E3 | exact E4 | assumption].
Qed.

(** *** Medians stay within the range of the input *)

Lemma insert_Q_perm (x : Q) (l : list Q) : Permutation (insert_Q x l) (x :: l).
Proof.
  induction l as [|y t IH]; simpl; [reflexivity|].
  destruct (Qleb x y); [reflexivity|]. rewrite IH. apply perm_swap.
Qed.

Lemma sort_Q_perm (l : list Q) : Permutation (sort_Q l) l.
Proof.
  induction l as [|x t IH]; simpl; [reflexivity|].
  rewrite insert_Q_perm. now constructor.
Qed.

Lemma median_bounds (lo hi : Q) (l : list Q) :
  l <> [] ->
  (forall x, In x l -> lo <= x /\ x <= hi) ->
  exists m, median l = Num m /\ lo <= m /\ m <= hi.
Proof.
  intros Hne H. unfold median.
  assert (Hlen : (0 < List.length l)%nat) by (destruct l; simpl; [congruence | lia]).
  assert (Hnth : forall i, (i < List.length l)%nat ->
                           lo <= nth i (sort_Q l) 0 /\ nth i (sort_Q l) 0 <= hi).
  { intros i Hi. apply H. apply (Permutation_in _ (sort_Q_perm l)).
    apply nth_In. now rewrite (Permutation_length (sort_Q_perm l)). }
  pose proof (Nat.div_lt (List.length l) 2 Hlen ltac:(lia)) as Hhalf.
  destruct (List.length l) as [|n] eqn:E; [lia|]. rewrite <- E in *.
  destruct (Nat.even (List.length l)); eexists; (split; [reflexivity|]).
  - destruct (Hnth (List.length l / 2 - 1)%nat) as [A1 A2]; [lia|].
    destruct (Hnth (List.length l / 2)%nat) as [B1 B2]; [lia|].
    split.
    + apply Qle_shift_div_l; [reflexivity | lra].
    + apply Qle_shift_div_r; [reflexivity | lra].
  - apply Hnth. lia.
Qed.

(** When every gi of the input lies between two bounds, so does the
    median gi of every player. *)
Theorem median_within_range (lo hi : Q) (df : list game) :
  (forall g, In g df ->
             (lo <= white_gi g /\ white_gi g <= hi) /\
             (lo <= black_gi g /\ black_gi g <= hi)) ->
  exists out,
    output_table df = Some out /\
    forall p r, In (p, r) (rows out) ->
      exists middle, col r "gi_median" = Num middle /\ lo <= middle /\ middle <= hi.
Proof.
  intros Hrange.
  destruct (tables_by_player df) as (ps & out & _ & Hout & _ & Hrows & _).
  exists out. split; [assumption|].
  intros p r Hin. apply Hrows in Hin. destruct Hin as [Hp ->].
  destruct (median_bounds lo hi (pooled gi df p)) as (m & Hm & M1 & M2).
  { now apply pooled_nonempty. }
  { intros x Hx.
    rewrite (pooled_split gi white_gi black_gi df p (fun _ => eq_refl) (fun _ => eq_refl)) in Hx.
    apply in_app_iff in Hx. destruct Hx as [Hx|Hx]; apply in_map_iff in Hx;
      destruct Hx as [g [<- Hg]]; unfold group in Hg; apply filter_In in Hg;
      apply (Hrange g (proj1 Hg)). }
  exists m. rewrite !col_output_row by reflexivity.
  split; [|split; assumption].
  change (col (player_row df p) "gi_median") with (fill 0 (median (pooled gi df p))).
  now rewrite Hm.
Qed.

(** *** [merge_dataframes] on tables with distinct columns *)

Lemma NoDup_app_disjoint {A : Type} (l1 l2 : list A) :
  NoDup (l1 ++ l2) -> forall a, In a l1 -> ~ In a l2.
Proof.
  induction l1 as [|x t IH]; simpl; intros Hnd a Hin; [destruct Hin|].
  inversion_clear Hnd as [|? ? Hx Ht]. destruct Hin as [<-|Hin].
  - intros H2. apply Hx, in_or_app. now right.
  - now apply IH.
Qed.

Lemma matching_unique (f : frame) (k : string) (r : row) :
  NoDup (keys f) -> In (k, r) (rows f) -> matching k f = [r].
Proof.
  unfold matching, keys. induction (rows f) as [|[k' r'] t IH]; simpl;
    intros Hnd Hin; [destruct Hin|].
  inversion_clear Hnd as [|? ? Hk Ht]. destruct Hin as [E|Hin].
  - inversion E; subst. rewrite String.eqb_refl. simpl. f_equal.
    rewrite filter_none; [reflexivity|].
    intros [k2 r2] H2. simpl. apply String.eqb_neq. intros ->.
    apply Hk. apply in_map_iff. exists (k, r2). auto.
  - destruct (String.eqb_spec k' k) as [->|Hne]; [|now apply IH].
    exfalso. apply Hk. apply in_map_iff. exists (k, r). auto.
Qed.

Lemma matching_none (f : frame) (k : string) : ~ In k (keys f) -> matching k f = [].
Proof.
  intros H. unfold matching. rewrite filter_none; [reflexivity|].
  intros [k' r] Hin. simpl. apply String.eqb_neq. intros ->.
  apply H. unfold keys. apply in_map_iff. exists (k, r). auto.
Qed.

Lemma cell_at_absent (f : frame) (k c : string) : ~ In k (keys f) -> cell_at f k c = NaN.
Proof.
  intros H. unfold cell_at. now rewrite matching_none.
Qed.

Lemma has_key_In (k : string) (K : list string) : has_key k K = true <-> In k K.
Proof. apply mem_In. Qed.

Lemma has_key_not_In (k : string) (K : list string) : has_key k K = false <-> ~ In k K.
Proof. apply mem_false. Qed.

Lemma same_names_eq (l1 l2 : list string) : same_names l1 l2 = true -> l1 = l2.
Proof.
  revert l2. induction l1 as [|x t IH]; intros [|y u]; simpl; try discriminate.
  - reflexivity.
  - intros H. apply andb_true_iff in H. destruct H as [H1 H2].
    apply String.eqb_eq in H1. subst. f_equal. now apply IH.
Qed.

Lemma well_formedb_spec (f : frame) : well_formedb f = true -> well_formed f.
Proof.
  unfold well_formedb. intros H. apply andb_true_iff in H. destruct H as [H1 H2].
  split; [now apply nodupb_NoDup|].
  intros k r Hin. rewrite forallb_forall in H2.
  exact (same_names_eq _ _ (H2 (k, r) Hin)).
Qed.

Lemma well_formed_tabulated (f : frame) :
  well_formed f -> NoDup (columns f) ->
  tabulated f (columns f) (keys f) (cell_at f).
Proof.
  intros [Hk Hr] Hc. split; [reflexivity|].
  unfold keys. rewrite map_map. rewrite <- (map_id (rows f)) at 1.
  apply map_ext_in. intros [k r] Hin. simpl. f_equal.
  rewrite <- (Hr k r Hin). symmetry. apply tab_row_eq.
  - now rewrite (Hr k r Hin).
  - apply Forall_forall. intros c _. unfold cell_at.
    now rewrite (matching_unique f k r Hk Hin).
Qed.

(** One step of the loop: the table merged so far, outer-joined with the
    next table and filled. *)
Lemma merge_step (acc g : frame) (fs : list frame) (cols K : list string)
      (V : string -> string -> cell) :
  tabulated acc cols K V -> NoDup K ->
  well_formed g -> NoDup (columns g) -> disjoint cols (columns g) = true ->
  (forall k, In k K <-> exists f, In f fs /\ In k (keys f)) ->
  (forall f c, In f fs -> In c (columns f) -> In c cols) ->
  (forall f c k, In f fs -> In c (columns f) -> In k K ->
                 fill 0 (V k c) = fill 0 (cell_at f k c)) ->
  exists V',
    tabulated (fillna 0 (merge acc g Outer)) (cols ++ columns g)
              (union_keys K (keys g)) V' /\
    (forall k, In k (union_keys K (keys g)) <->
               exists f, In f (fs ++ [g]) /\ In k (keys f)) /\
    (forall f c k, In f (fs ++ [g]) -> In c (columns f) ->
                   In k (union_keys K (keys g)) ->
                   V' k c = fill 0 (cell_at f k c)).
Proof.
  intros Hacc HK [Hgk Hgr] Hgc Hd Hkeys Hcols HV.
  pose proof (well_formed_tabulated g (conj Hgk Hgr) Hgc) as Hg.
  exists (fun k c => fill 0 (joined cols K V (keys g) (cell_at g) k c)).
  split; [|split].
  - apply tab_fillna. now apply tab_merge_outer.
  - intros k. unfold union_keys. rewrite In_sorted_unique, in_app_iff, Hkeys. split.
    + intros [[f [Hf Hk]]|Hk]; [exists f | exists g]; split; auto using in_or_app.
      apply in_or_app. right. now left.
    + intros [f [Hf Hk]]. apply in_app_iff in Hf. destruct Hf as [Hf|[<-|[]]]; eauto.
  - intros f c k Hf Hc Hk. unfold joined, at_key. apply in_app_iff in Hf.
    destruct Hf as [Hf|[<-|[]]].
    + assert (Hm : mem c cols = true) by (apply mem_In; eauto).
      rewrite Hm. destruct (has_key k K) eqn:E.
      * apply HV; try assumption. now apply has_key_In.
      * rewrite cell_at_absent; [reflexivity|].
        intros Hin. apply has_key_not_In in E. apply E, Hkeys. eauto.
    + assert (Hm : mem c cols = false).
      { apply mem_false. intros Hin.
        apply (proj1 (disjoint_spec _ _) Hd c Hin Hc). }
      rewrite Hm. destruct (has_key k (keys g)) eqn:E; [reflexivity|].
      apply has_key_not_In in E. now rewrite cell_at_absent.
Qed.

Lemma merge_all_tabulated (rest : list frame) :
  forall first,
    Forall well_formed (first :: rest) ->
    NoDup (List.concat (map columns (first :: rest))) ->
    exists K V,
      tabulated (fold_left (fun merged_df df => fillna 0 (merge merged_df df Outer))
                           rest first)
                (List.concat (map columns (first :: rest))) K V /\
      NoDup K /\
      (forall k, In k K <-> exists f, In f (first :: rest) /\ In k (keys f)) /\
      (forall f c k, In f (first :: rest) -> In c (columns f) -> In k K ->
                     fill 0 (V k c) = fill 0 (cell_at f k c)) /\
      (rest <> [] ->
       forall f c k, In f (first :: rest) -> In c (columns f) -> In k K ->
                     V k c = fill 0 (cell_at f k c)).
Proof.
  induction rest as [|g rest IH] using rev_ind; intros first Hwf Hnd.
  - inversion_clear Hwf as [|? ? Hf _]. simpl in Hnd. rewrite app_nil_r in Hnd.
    exists (keys first), (cell_at first). simpl. rewrite app_nil_r.
    split; [now apply well_formed_tabulated|].
    split; [apply Hf|].
    split; [|split].
    + intros k. split; [eauto|]. now intros [f [[<-|[]] Hk]].
    + now intros f c k [<-|[]] _ _.
    + congruence.
  - change (first :: rest ++ [g]) with ((first :: rest) ++ [g]) in *.
    apply Forall_app in Hwf. destruct Hwf as [Hwf Hg].
    inversion_clear Hg as [|? ? Hg' _].
    rewrite map_app, List.concat_app in Hnd |- *. simpl List.concat in Hnd |- *.
    rewrite app_nil_r in Hnd |- *.
    destruct (IH first Hwf (NoDup_app_remove_r _ _ Hnd)) as (K & V & Htab & HK & Hkeys & HV & _).
    rewrite fold_left_app. simpl fold_left.
    destruct (merge_step _ g (first :: rest) _ K V Htab HK Hg'
                         (NoDup_app_remove_l _ _ Hnd)) as (V' & Htab' & Hkeys' & HV').
    + apply disjoint_spec. intros c H1 H2.
      exact (NoDup_app_disjoint _ _ Hnd c H1 H2).
    + exact Hkeys.
    + intros f c Hf Hc. apply in_concat. exists (columns f). split; [|assumption].
      now apply in_map.
    + exact HV.
    + exists (union_keys K (keys g)), V'.
      split; [assumption|]. split; [apply NoDup_union_keys|].
      split; [assumption|]. split.
      * intros f c k Hf Hc Hk. now rewrite (HV' f c k Hf Hc Hk), fill_fill.
      * intros _. exact HV'.
Qed.

(** Given tables with one row per key and no column name in common,
    [merge_dataframes] returns a table with all their columns, in the
    order of the list, and with one row for each key that a table has. *)
Theorem merge_dataframes_keys (first : frame) (rest : list frame) :
  Forall well_formed (first :: rest) ->
  NoDup (List.concat (map columns (first :: rest))) ->
  exists merged_df,
    merge_dataframes (first :: rest) = Some merged_df /\
    columns merged_df = List.concat (map columns (first :: rest)) /\
    NoDup (keys merged_df) /\
    forall k, In k (keys merged_df) <-> exists f, In f (first :: rest) /\ In k (keys f).
Proof.
  intros Hwf Hnd.
  destruct (merge_all_tabulated rest first Hwf Hnd) as (K & V & Htab & HK & Hkeys & _).
  eexists. split; [reflexivity|].
  rewrite (tabulated_keys _ _ _ _ Htab).
  split; [apply Htab|]. split; assumption.
Qed.

(** Given two such tables or more, a cell of the merged table holds what
    the table of that column holds for the key, with zero in place of a
    missing value, and zero when that table has no row for the key. *)
Theorem merge_dataframes_fills (first second : frame) (rest : list frame) :
  Forall well_formed (first :: second :: rest) ->
  NoDup (List.concat (map columns (first :: second :: rest))) ->
  exists merged_df,
    merge_dataframes (first :: second :: rest) = Some merged_df /\
    forall k r f c,
      In (k, r) (rows merged_df) ->
      In f (first :: second :: rest) -> In c (columns f) ->
      col r c = match matching k f with
                | r0 :: _ => fill 0 (col r0 c)
                | [] => Num 0
                end.
Proof.
  intros Hwf Hnd.
  destruct (merge_all_tabulated (second :: rest) first Hwf Hnd)
    as (K & V & Htab & HK & Hkeys & _ & HV).
  destruct Htab as [Hcols Hrows].
  eexists. split; [reflexivity|].
  intros k r f c Hin Hf Hc.
  rewrite Hrows in Hin.
  apply in_map_iff in Hin. destruct Hin as [k' [E Hk]]. inversion E; subst k' r.
  rewrite col_tab_row.
  - rewrite (HV ltac:(discriminate) f c k Hf Hc Hk). unfold cell_at.
    destruct (matching k f); reflexivity.
  - apply mem_In.
    change (In c (List.concat (map columns (first :: second :: rest)))).
    apply in_concat. exists (columns f). split; [|assumption].
    now apply in_map.
Qed.

(** *** The order of the input rows *)

Lemma filter_perm {A : Type} (f : A -> bool) (l l' : list A) :
  Permutation l l' -> Permutation (filter f l) (filter f l').
Proof.
  induction 1 as [|x l l' _ IH|x y l|l l' l'' _ IH1 _ IH2]; simpl.
  - constructor.
  - destruct (f x); [constructor|]; assumption.
  - destruct (f x), (f y); try reflexivity. apply perm_swap.
  - now transitivity (filter f l').
Qed.

Lemma sum_as_perm (side : game -> string) (value : game -> Q)
      (df df' : list game) (p : string) :
  Permutation df df' -> sum_as side value df p == sum_as side value df' p.
Proof.
  intros H. unfold sum_as, group. apply Qsum_perm, Permutation_map.
  now apply filter_perm.
Qed.

Lemma games_as_perm (side : game -> string) (df df' : list game) (p : string) :
  Permutation df df' -> games_as side df p = games_as side df' p.
Proof.
  intros H. unfold games_as, group, Qlen.
  now rewrite (Permutation_length (filter_perm _ _ _ H)).
Qed.

Lemma total_of_perm (white_value black_value : game -> Q)
      (df df' : list game) (p : string) :
  Permutation df df' ->
  total_of white_value black_value df p == total_of white_value black_value df' p.
Proof.
  intros H. unfold total_of.
  now rewrite (sum_as_perm White white_value df df' p H),
              (sum_as_perm Black black_value df df' p H).
Qed.

Lemma game_count_perm (df df' : list game) (p : string) :
  Permutation df df' -> game_count df p = game_count df' p.
Proof.
  intros H. unfold game_count.
  now rewrite (games_as_perm White df df' p H), (games_as_perm Black df df' p H).
Qed.

Lemma is_player_perm (df df' : list game) (p : string) :
  Permutation df df' -> is_player df p -> is_player df' p.
Proof.
  intros H [Hw|Hb]; [left | right].
  - exact (Permutation_in p (Permutation_map White H) Hw).
  - exact (Permutation_in p (Permutation_map Black H) Hb).
Qed.

(** Reordering the rows of the input changes neither the set of players
    nor any player's game counts, result sums, points and move total. *)
Theorem row_order_is_irrelevant (df df' : list game) :
  Permutation df df' ->
  exists out out',
    output_table df = Some out /\
    output_table df' = Some out' /\
    (forall p, In p (keys out) <-> In p (keys out')) /\
    forall p r r' c,
      In (p, r) (rows out) -> In (p, r') (rows out') ->
      In c ["total_game_count"; "White_games"; "Black_games"; "Points";
            "white_result_sum"; "black_result_sum"; "total_moves"] ->
      exists x x', col r c = Num x /\ col r' c = Num x' /\ x == x'.
Proof.
  intros Hperm.
  destruct (tables_by_player df) as (ps & out & _ & Hout & _ & Hrows & _).
  destruct (tables_by_player df') as (ps' & out' & _ & Hout' & _ & Hrows' & _).
  exists out, out'. split; [assumption|]. split; [assumption|]. split.
  - intros p. unfold keys. rewrite !in_map_iff. split.
    + intros [[k r] [E Hin]]. simpl in E. subst k. apply Hrows in Hin.
      exists (p, output_row df' p). split; [reflexivity|]. apply Hrows'.
      split; [|reflexivity]. apply (is_player_perm df df' p Hperm), Hin.
    + intros [[k r] [E Hin]]. simpl in E. subst k. apply Hrows' in Hin.
      exists (p, output_row df p). split; [reflexivity|]. apply Hrows.
      split; [|reflexivity].
      apply (is_player_perm df' df p (Permutation_sym Hperm)), Hin.
  - intros p r r' c Hin Hin' Hc.
    apply Hrows in Hin. apply Hrows' in Hin'.
    destruct Hin as [_ ->]. destruct Hin' as [_ ->].
    pose proof (game_count_perm df df' p Hperm) as Hn.
    pose proof (games_as_perm White df df' p Hperm) as Hw.
    pose proof (games_as_perm Black df df' p Hperm) as Hb.
    simpl in Hc.
    repeat (destruct Hc as [<-|Hc];
            [rewrite !col_output_row by reflexivity;
             do 2 eexists; (split; [reflexivity|]); (split; [reflexivity|]);
             rewrite <- ?Hn, <- ?Hw, <- ?Hb;
             rewrite ?(total_of_perm _ _ df df' p Hperm),
                     ?(sum_as_perm _ _ df df' p Hperm);
             reflexivity|]).
    destruct Hc.
Qed.

End Pipeline.

(** ** The order of the output *)


(** ** The claims on the sample tables *)

Lemma union_completeness_witness :
  exists out,
    output_table approx_sqrt no_differential add_differential
                 (insertion_sort_values false) two_games = Some out /\
    forall p, In p (keys out) <-> In p (map White two_games) \/ In p (map Black two_games).
Proof.
  exact (union_completeness approx_sqrt no_differential add_differential
                            (insertion_sort_values false)
                            (insertion_sort_values_descending false) two_games).
Defined.

Lemma single_color_elo_witness :
  exists out,
    output_table approx_sqrt no_differential add_differential
                 (insertion_sort_values false) two_games = Some out /\
    forall p r, In (p, r) (rows out) ->
      let w := avg_elo White WhiteElo two_games p in
      let b := avg_elo Black BlackElo two_games p in
      (0 < w -> 0 < b ->
       col r "Elo" = Num (inject_Z (round_half_even ((w + b) / 2)))) /\
      (0 < w -> b == 0 -> col r "Elo" = Num (inject_Z (round_half_even w))) /\
      (w == 0 -> 0 < b -> col r "Elo" = Num (inject_Z (round_half_even b))) /\
      (~ (0 < w /\ 0 < b) ->
       col r "Elo" = Num (inject_Z (round_half_even (if Qltb w b then b else w)))) /\
      (~ In p (map White two_games) -> w = 0%Q) /\
      (~ In p (map Black two_games) -> b = 0%Q).
Proof.
  exact (single_color_elo approx_sqrt no_differential add_differential
           (insertion_sort_values false) (insertion_sort_values_descending false)
           two_games).
Defined.

Lemma average_identity_witness :
  exists ps out,
    player_stats approx_sqrt no_differential add_differential two_games = Some ps /\
    output_table approx_sqrt no_differential add_differential
                 (insertion_sort_values false) two_games = Some out /\
    forall p r, In (p, r) (rows out) ->
      exists w count sum_gi sum_gi_raw sum_gpl sum_acpl,
        In (p, w) (rows ps) /\
        col w "total_game_count" = Num count /\
        col r "total_game_count" = Num count /\
        0 < count /\
        col w "total_gi_sum" = Num sum_gi /\
        col r "avg_gi" = Num (sum_gi / count) /\
        col w "total_gi_raw_sum" = Num sum_gi_raw /\
        col r "avg_gi_raw" = Num (sum_gi_raw / count) /\
        col w "total_gpl_sum" = Num sum_gpl /\
        col r "avg_gpl" = Num (sum_gpl / count) /\
        col w "total_acpl_sum" = Num sum_acpl /\
        col r "avg_acpl" = Num (sum_acpl / count).
Proof.
  exact (average_identity approx_sqrt no_differential add_differential
           (insertion_sort_values false) (insertion_sort_values_descending false)
           two_games).
Defined.

Lemma sum_identity_witness :
  exists ps out,
    player_stats approx_sqrt no_differential add_differential two_games = Some ps /\
    output_table approx_sqrt no_differential add_differential
                 (insertion_sort_values false) two_games = Some out /\
    (forall p, In p (keys out) -> exists w, In (p, w) (rows ps)) /\
    forall p w, In (p, w) (rows ps) ->
      (col w "white_gi_sum" = Num (sum_as White white_gi two_games p) /\
       col w "black_gi_sum" = Num (sum_as Black black_gi two_games p) /\
       col w "total_gi_sum"
       = Num (sum_as White white_gi two_games p + sum_as Black black_gi two_games p)) /\
      (col w "white_gi_raw_sum" = Num (sum_as White white_gi_raw two_games p) /\
       col w "black_gi_raw_sum" = Num (sum_as Black black_gi_raw two_games p) /\
       col w "total_gi_raw_sum"
       = Num (sum_as White white_gi_raw two_games p + sum_as Black black_gi_raw two_games p)) /\
      (col w "white_gpl_sum" = Num (sum_as White white_gpl two_games p) /\
       col w "black_gpl_sum" = Num (sum_as Black black_gpl two_games p) /\
       col w "total_gpl_sum"
       = Num (sum_as White white_gpl two_games p + sum_as Black black_gpl two_games p)) /\
      (col w "white_acpl_sum" = Num (sum_as White white_acpl two_games p) /\
       col w "black_acpl_sum" = Num (sum_as Black black_acpl two_games p) /\
       col w "total_acpl_sum"
       = Num (sum_as White white_acpl two_games p + sum_as Black black_acpl two_games p)) /\
      (forall value, ~ In p (map White two_games) -> sum_as White value two_games p = 0%Q) /\
      (forall value, ~ In p (map Black two_games) -> sum_as Black value two_games p = 0%Q).
Proof.
  exact (sum_identity approx_sqrt no_differential add_differential
           (insertion_sort_values false) (insertion_sort_values_descending false)
           two_games).
Defined.

Lemma game_count_identity_witness :
  exists out,
    output_table approx_sqrt no_differential add_differential
                 (insertion_sort_values false) two_games = Some out /\
    forall p r, In (p, r) (rows out) ->
      col r "White_games" = Num (games_as White two_games p) /\
      col r "Black_games" = Num (games_as Black two_games p) /\
      col r "total_game_count" = Num (games_as White two_games p + games_as Black two_games p) /\
      (~ In p (map White two_games) -> games_as White two_games p = 0%Q) /\
      (~ In p (map Black two_games) -> games_as Black two_games p = 0%Q).
Proof.
  exact (game_count_identity approx_sqrt no_differential add_differential
           (insertion_sort_values false) (insertion_sort_values_descending false)
           two_games).
Defined.

Lemma positive_game_count_witness :
  exists out,
    output_table approx_sqrt no_differential add_differential
                 (insertion_sort_values false) two_games = Some out /\
    forall p r, In (p, r) (rows out) ->
      col r "total_game_count" = Num (games_as White two_games p + games_as Black two_games p) /\
      1 <= games_as White two_games p + games_as Black two_games p /\
      ~ games_as White two_games p + games_as Black two_games p == 0.
Proof.
  exact (positive_game_count approx_sqrt no_differential add_differential
           (insertion_sort_values false) (insertion_sort_values_descending false)
           two_games).
Defined.

Lemma single_observation_dispersion_witness :
  List.length (observations tied_game "A") = 1%nat /\
  (((exists s, In ("A", s) (rows (calculate_statistics approx_sqrt (combined_df tied_game) gi "gi"))) /\
   forall s, In ("A", s) (rows (calculate_statistics approx_sqrt (combined_df tied_game) gi "gi")) ->
             col s "gi_var" = NaN /\ col s "gi_std" = NaN) /\
  ((exists s, In ("A", s) (rows (calculate_statistics approx_sqrt (combined_df tied_game) gi_raw "gi_raw"))) /\
   forall s, In ("A", s) (rows (calculate_statistics approx_sqrt (combined_df tied_game) gi_raw "gi_raw")) ->
             col s "gi_raw_var" = NaN /\ col s "gi_raw_std" = NaN) /\
  ((exists s, In ("A", s) (rows (calculate_statistics approx_sqrt (combined_df tied_game) gpl "gpl"))) /\
   forall s, In ("A", s) (rows (calculate_statistics approx_sqrt (combined_df tied_game) gpl "gpl")) ->
             col s "gpl_var" = NaN /\ col s "gpl_std" = NaN) /\
  ((exists s, In ("A", s) (rows (calculate_statistics approx_sqrt (combined_df tied_game) acpl "acpl"))) /\
   forall s, In ("A", s) (rows (calculate_statistics approx_sqrt (combined_df tied_game) acpl "acpl")) ->
             col s "acpl_var" = NaN /\ col s "acpl_std" = NaN) /\
  exists out,
    output_table approx_sqrt no_differential add_differential
                 (insertion_sort_values false) tied_game = Some out /\
    (exists r, In ("A", r) (rows out)) /\
    forall r, In ("A", r) (rows out) ->
      col r "gi_var" = Num 0 /\ col r "gi_std" = Num 0 /\
      col r "gi_raw_var" = Num 0 /\ col r "gi_raw_std" = Num 0 /\
      col r "gpl_var" = Num 0 /\ col r "gpl_std" = Num 0 /\
      col r "acpl_var" = Num 0 /\ col r "acpl_std" = Num 0).
Proof.
  split; [reflexivity|].
  exact (single_observation_dispersion approx_sqrt no_differential add_differential
           (insertion_sort_values false) (insertion_sort_values_descending false)
           tied_game "A" eq_refl).
Defined.

Lemma missing_input_file_witness :
  path_exists "games.csv" (files empty_world) = false /\
  main_stats approx_sqrt no_differential add_differential (insertion_sort_values false)
             empty_world "games.csv" "out"
  = ({| files := []; stdout := ["File not found: games.csv"] |}, Returned).
Proof.
  split; [reflexivity|].
  exact (missing_input_file approx_sqrt no_differential add_differential
           (insertion_sort_values false) empty_world "games.csv" "out" eq_refl).
Defined.

(** ** Further properties on the sample tables *)

Lemma one_row_per_player_witness :
  exists out,
    output_table approx_sqrt no_differential add_differential
                 (insertion_sort_values false) two_games = Some out /\
    NoDup (keys out) /\
    List.length (rows out)
    = List.length (sorted_unique (map White two_games ++ map Black two_games)).
Proof.
  exact (one_row_per_player approx_sqrt no_differential add_differential
           (insertion_sort_values false)
           (insertion_sort_values_descending false) two_games).
Defined.

Lemma points_identity_witness :
  exists out,
    output_table approx_sqrt no_differential add_differential
                 (insertion_sort_values false) two_games = Some out /\
    forall p r, In (p, r) (rows out) ->
      col r "white_result_sum" = Num (sum_as White WhiteResult two_games p) /\
      col r "black_result_sum" = Num (sum_as Black BlackResult two_games p) /\
      col r "Points"
      = Num (sum_as White WhiteResult two_games p + sum_as Black BlackResult two_games p).
Proof.
  exact (points_identity approx_sqrt no_differential add_differential
           (insertion_sort_values false)
           (insertion_sort_values_descending false) two_games).
Defined.

Lemma total_moves_identity_witness :
  exists out,
    output_table approx_sqrt no_differential add_differential
                 (insertion_sort_values false) two_games = Some out /\
    forall p r, In (p, r) (rows out) ->
      col r "total_moves"
      = Num (sum_as White white_move_number two_games p + sum_as Black black_move_number two_games p) /\
      (~ In p (map White two_games) -> sum_as White white_move_number two_games p = 0%Q) /\
      (~ In p (map Black two_games) -> sum_as Black black_move_number two_games p = 0%Q).
Proof.
  exact (total_moves_identity approx_sqrt no_differential add_differential
           (insertion_sort_values false)
           (insertion_sort_values_descending false) two_games).
Defined.

Lemma tpr_composition_witness :
  exists out,
    output_table approx_sqrt no_differential add_differential
                 (insertion_sort_values false) two_games = Some out /\
    forall p r, In (p, r) (rows out) ->
      let w_star :=
        no_differential (col r "Points") (col r "total_game_count") (3 # 4) in
      let opponents :=
        ((sum_as White BlackElo two_games p + sum_as Black WhiteElo two_games p)
         / (games_as White two_games p + games_as Black two_games p))%Q in
      col r "TPR" = py_round (add_differential w_star (Num opponents)) /\
      forall q, add_differential w_star (Num opponents) = Num q ->
                col r "TPR" = Num (inject_Z (round_half_even q)).
Proof.
  exact (tpr_composition approx_sqrt no_differential add_differential
           (insertion_sort_values false)
           (insertion_sort_values_descending false) two_games).
Defined.

Lemma games_counted_twice_witness :
  exists out counts,
    output_table approx_sqrt no_differential add_differential
                 (insertion_sort_values false) two_games = Some out /\
    map (fun kr => col (snd kr) "total_game_count") (rows out) = map Num counts /\
    Qsum counts == inject_Z (Z.of_nat (2 * List.length two_games)).
Proof.
  exact (games_counted_twice approx_sqrt no_differential add_differential
           (insertion_sort_values false)
           (insertion_sort_values_descending false) two_games).
Defined.

Lemma points_conserved_witness :
  exists out points,
    output_table approx_sqrt no_differential add_differential
                 (insertion_sort_values false) two_games = Some out /\
    map (fun kr => col (snd kr) "Points") (rows out) = map Num points /\
    Qsum points == Qsum (map WhiteResult two_games) + Qsum (map BlackResult two_games) /\
    ((forall g, In g two_games -> WhiteResult g + BlackResult g == 1) ->
     Qsum points == inject_Z (Z.of_nat (List.length two_games))).
Proof.
  exact (points_conserved approx_sqrt no_differential add_differential
           (insertion_sort_values false)
           (insertion_sort_values_descending false) two_games).
Defined.

Lemma moves_conserved_witness :
  exists out moves,
    output_table approx_sqrt no_differential add_differential
                 (insertion_sort_values false) two_games = Some out /\
    map (fun kr => col (snd kr) "total_moves") (rows out) = map Num moves /\
    Qsum moves
    == Qsum (map white_move_number two_games) + Qsum (map black_move_number two_games).
Proof.
  exact (moves_conserved approx_sqrt no_differential add_differential
           (insertion_sort_values false)
           (insertion_sort_values_descending false) two_games).
Defined.

Lemma statistics_are_pooled_witness :
  exists out,
    output_table approx_sqrt no_differential add_differential
                 (insertion_sort_values false) two_games = Some out /\
    forall p r, In (p, r) (rows out) ->
      let sample (white_value black_value : game -> Q) :=
        map white_value (group White two_games p) ++ map black_value (group Black two_games p) in
      (col r "gi_median" = median (sample white_gi black_gi) /\
       col r "gi_var" = fill 0 (var (sample white_gi black_gi)) /\
       col r "gi_std" = fill 0 (std approx_sqrt (sample white_gi black_gi))) /\
      (col r "gi_raw_median" = median (sample white_gi_raw black_gi_raw) /\
       col r "gi_raw_var" = fill 0 (var (sample white_gi_raw black_gi_raw)) /\
       col r "gi_raw_std" = fill 0 (std approx_sqrt (sample white_gi_raw black_gi_raw))) /\
      (col r "gpl_median" = median (sample white_gpl black_gpl) /\
       col r "gpl_var" = fill 0 (var (sample white_gpl black_gpl)) /\
       col r "gpl_std" = fill 0 (std approx_sqrt (sample white_gpl black_gpl))) /\
      (col r "acpl_median" = median (sample white_acpl black_acpl) /\
       col r "acpl_var" = fill 0 (var (sample white_acpl black_acpl)) /\
       col r "acpl_std" = fill 0 (std approx_sqrt (sample white_acpl black_acpl))).
Proof.
  exact (statistics_are_pooled approx_sqrt no_differential add_differential
           (insertion_sort_values false)
           (insertion_sort_values_descending false) two_games).
Defined.

Lemma variance_not_negative_witness :
  exists out,
    output_table approx_sqrt no_differential add_differential
                 (insertion_sort_values false) two_games = Some out /\
    forall p r, In (p, r) (rows out) ->
      exists v_gi v_gi_raw v_gpl v_acpl,
        (col r "gi_var" = Num v_gi /\ 0 <= v_gi) /\
        (col r "gi_raw_var" = Num v_gi_raw /\ 0 <= v_gi_raw) /\
        (col r "gpl_var" = Num v_gpl /\ 0 <= v_gpl) /\
        (col r "acpl_var" = Num v_acpl /\ 0 <= v_acpl).
Proof.
  exact (variance_not_negative approx_sqrt no_differential add_differential
           (insertion_sort_values false)
           (insertion_sort_values_descending false) two_games).
Defined.

Lemma output_schema_witness :
  exists ps out,
    player_stats approx_sqrt no_differential add_differential two_games = Some ps /\
    output_table approx_sqrt no_differential add_differential
                 (insertion_sort_values false) two_games = Some out /\
    In "avg_gi" columns_to_include /\
    (forall c, In c columns_to_include -> In c (columns ps)) /\
    columns out = columns_to_include /\
    forall p r, In (p, r) (rows out) ->
      map fst r = columns_to_include /\
      exists w, In (p, w) (rows ps) /\
                forall c, In c columns_to_include -> lookup c w = Some (col r c).
Proof.
  exact (output_schema approx_sqrt no_differential add_differential
           (insertion_sort_values false)
           (insertion_sort_values_descending false) two_games).
Defined.

Lemma median_within_range_witness :
  exists out,
    output_table approx_sqrt no_differential add_differential
                 (insertion_sort_values false) two_games = Some out /\
    forall p r, In (p, r) (rows out) ->
      exists middle, col r "gi_median" = Num middle /\ 60 <= middle /\ middle <= 80.
Proof.
  apply (median_within_range approx_sqrt no_differential add_differential
           (insertion_sort_values false)
           (insertion_sort_values_descending false) 60 80 two_games).
  intros g [<-|[<-|[]]]; repeat split; vm_compute; discriminate.
Defined.

Lemma row_order_is_irrelevant_witness :
  exists out out',
    output_table approx_sqrt no_differential add_differential
                 (insertion_sort_values false) two_games = Some out /\
    output_table approx_sqrt no_differential add_differential
                 (insertion_sort_values false) (rev two_games) = Some out' /\
    (forall p, In p (keys out) <-> In p (keys out')) /\
    forall p r r' c,
      In (p, r) (rows out) -> In (p, r') (rows out') ->
      In c ["total_game_count"; "White_games"; "Black_games"; "Points";
            "white_result_sum"; "black_result_sum"; "total_moves"] ->
      exists x x', col r c = Num x /\ col r' c = Num x' /\ x == x'.
Proof.
  apply (row_order_is_irrelevant approx_sqrt no_differential add_differential
           (insertion_sort_values false)
           (insertion_sort_values_descending false) two_games (rev two_games)).
  apply Permutation_rev.
Defined.

Lemma merge_dataframes_keys_witness :
  exists merged_df,
    merge_dataframes sample_tables = Some merged_df /\
    columns merged_df = List.concat (map columns sample_tables) /\
    NoDup (keys merged_df) /\
    forall k, In k (keys merged_df) <-> exists f, In f sample_tables /\ In k (keys f).
Proof.
  apply (merge_dataframes_keys
           (calculate_sum negative_elo_games White WhiteResult "white_result")
           [calculate_sum negative_elo_games Black BlackResult "black_result";
            calculate_total_moves negative_elo_games]).
  - repeat (apply Forall_cons; [apply well_formedb_spec; reflexivity|]).
    apply Forall_nil.
  - apply nodupb_NoDup. reflexivity.
Defined.

Lemma merge_dataframes_fills_witness :
  exists merged_df,
    merge_dataframes sample_tables = Some merged_df /\
    forall k r f c,
      In (k, r) (rows merged_df) ->
      In f sample_tables -> In c (columns f) ->
      col r c = match matching k f with
                | r0 :: _ => fill 0 (col r0 c)
                | [] => Num 0
                end.
Proof.
  apply (merge_dataframes_fills
           (calculate_sum negative_elo_games White WhiteResult "white_result")
           (calculate_sum negative_elo_games Black BlackResult "black_result")
           [calculate_total_moves negative_elo_games]).
  - repeat (apply Forall_cons; [apply well_formedb_spec; reflexivity|]).
    apply Forall_nil.
  - apply nodupb_NoDup. reflexivity.
Defined.

(** *** Where the code departs from a claim *)

(** Against C2 as stated (nonzero where the script tests greater than
    zero): [A] has a nonzero average Elo in both roles and does not get
    the rounded mean; [C] has a nonzero average Elo as White only and
    does not get that average rounded. *)
Lemma single_color_elo_counterexample :
  exists out ra rc,
    output_table approx_sqrt no_differential add_differential
                 (insertion_sort_values false) negative_elo_games = Some out /\
    In ("A", ra) (rows out) /\
    In ("C", rc) (rows out) /\
    (let w := avg_elo White WhiteElo negative_elo_games "A" in
     let b := avg_elo Black BlackElo negative_elo_games "A" in
     ~ w == 0 /\ ~ b == 0 /\
     col ra "Elo" = Num 1500 /\
     col ra "Elo" <> Num (inject_Z (round_half_even ((w + b) / 2)))) /\
    (let w := avg_elo White WhiteElo negative_elo_games "C" in
     let b := avg_elo Black BlackElo negative_elo_games "C" in
     ~ w == 0 /\ b == 0 /\
     col rc "Elo" = Num 0 /\
     col rc "Elo" <> Num (inject_Z (round_half_even w))).
Proof.
  eexists. eexists. eexists.
  split; [vm_compute; reflexivity|].
  split; [right; left; reflexivity|].
  split; [right; right; left; reflexivity|].
  vm_compute. repeat split; try reflexivity; intros H; discriminate H.
Qed.


(** Against C4 as stated (the row carries a not-a-number marker): [A]
    has exactly one observation and the row of [A] carries the number
    zero as variance and as standard deviation of gi. *)
Lemma single_observation_counterexample :
  exists out r,
    output_table approx_sqrt no_differential add_differential
                 (insertion_sort_values false) tied_game = Some out /\
    In ("A", r) (rows out) /\
    List.length (observations tied_game "A") = 1%nat /\
    col r "gi_var" = Num 0 /\ col r "gi_var" <> NaN /\
    col r "gi_std" = Num 0 /\ col r "gi_std" <> NaN.
Proof.
  eexists. eexists.
  split; [vm_compute; reflexivity|].
  split; [left; reflexivity|].
  vm_compute. repeat split; try reflexivity; intros H; discriminate H.
Qed.

(** The concrete scenario of the specification: two rows, two games
    each, the points and the average gi it lists. *)
Example two_games_scenario :
  exists out,
    output_table approx_sqrt no_differential add_differential
                 (insertion_sort_values false) two_games = Some out /\
    keys out = ["A"; "B"] /\
    map (fun kr => col (snd kr) "total_game_count") (rows out) = [Num 2; Num 2] /\
    map (fun kr => col (snd kr) "Points") (rows out) = [Num (3 # 2); Num (1 # 2)] /\
    map (fun kr => col (snd kr) "avg_gi") (rows out) = [Num (155 # 2); Num (130 # 2)].
Proof.
  eexists. split; [vm_compute; reflexivity|]. vm_compute. repeat split.
Qed.
